(** * Rental-as-PPE actor: a model of [src/main.ts] and its metering properties

    The actor charges one 'rental' event for the first run of a month and
    gives a monthly allowance of free results before charging 'result'
    events.  All coordination goes through a bookkeeping dataset that is
    only listed and appended to.

    Part I holds the definitions:
    - the bookkeeping records and the pure helpers of the source;
    - the external calls the script makes, and programs over them
      (a free monad with one constructor per awaited or observable call);
    - the script itself: startup, the two timer callbacks, the request
      handler;
    - an interpreter against a world holding the bookkeeping dataset, the
      module-level variables and a trace of external effects;
    - a run handling its requests one after the other, the crawler with
      request handlers in flight, and several runs racing for the rental
      charge;
    - the invariants, the claims in the words of the specification, and
      the concrete environments used in examples.

    Part II holds the lemmas and theorems. *)

From Stdlib Require Import ZArith String List Lia Bool DecimalString DecimalPos DecimalZ.
From stdpp Require Import base strings list gmap.
Import ListNotations.

Open Scope string_scope.
Open Scope Z_scope.
Open Scope list_scope.

(** * Part I: definitions *)

(** ** Bookkeeping records *)

(** [BookkeepingRecord = FirstMonthRunRecord | ItemsPushedRecord], the
    union discriminated by its [type] field. *)
Inductive BookkeepingRecord : Type :=
| FirstMonthRunRecord (runId : string) (timestamp : string)
| ItemsPushedRecord (count : Z) (runId : string) (timestamp : string).

Inductive ChargeEvent : Type := rental | result.

(** The actor input; a field left out of the input object is [None]. *)
Record Input : Type := mkInput {
  requestsCount : option Z;
  prepaidRentalResultsCount : option Z
}.

Record Request : Type := mkRequest {
  url : string;
  loadedUrl : option string
}.

Definition SAFE_RENTAL_RECHECK_WAIT_MS : Z := 5000.
Definition REFRESH_INTERVAL_MS : Z := 10000.
Definition maxConcurrency : nat := 3.

(** [item.type === 'first-month-run'] and [item.type === 'items-pushed']. *)
Definition isFirstMonthRun (item : BookkeepingRecord) : bool :=
  match item with FirstMonthRunRecord _ _ => true | ItemsPushedRecord _ _ _ => false end.

Definition isItemsPushed (item : BookkeepingRecord) : bool :=
  match item with ItemsPushedRecord _ _ _ => true | FirstMonthRunRecord _ _ => false end.

Definition recordRunId (item : BookkeepingRecord) : string :=
  match item with
  | FirstMonthRunRecord r _ => r
  | ItemsPushedRecord _ r _ => r
  end.

Definition recordTimestamp (item : BookkeepingRecord) : string :=
  match item with
  | FirstMonthRunRecord _ t => t
  | ItemsPushedRecord _ _ t => t
  end.

(** [bookkeepingItems.some((item) => item.type === 'first-month-run')] *)
Definition wasAlreadyRunThisMonth (bookkeepingItems : list BookkeepingRecord) : bool :=
  existsb isFirstMonthRun bookkeepingItems.

(** [bookkeepingItems.find((item) => item.type === 'first-month-run')?.runId
     === Actor.getEnv().actorRunId]; with no such record the left side is
    [undefined], which is not equal to a run id. *)
Definition isThisReallyFirstRun
    (bookkeepingItems : list BookkeepingRecord) (actorRunId : string) : bool :=
  match List.find isFirstMonthRun bookkeepingItems with
  | Some item => String.eqb (recordRunId item) actorRunId
  | None => false
  end.

(** [items.filter((item) => item.type === 'items-pushed')
         .reduce((acc, item) => acc + item.count, 0)].
    Only items-pushed records reach the reducer. *)
Definition sumBookkeepingPushedResultsCount (items : list BookkeepingRecord) : Z :=
  fold_left
    (fun acc item =>
       match item with
       | ItemsPushedRecord c _ _ => acc + c
       | FirstMonthRunRecord _ _ => acc
       end)
    (List.filter isItemsPushed items) 0.

(** [`https://example.com/page-${i + 1}`] for [i] in [0 .. requestsCount-1];
    a length below zero gives the empty array. *)
Definition pageUrl (i : nat) : string :=
  "https://example.com/page-" +:+ NilZero.string_of_int (Z.to_int (Z.of_nat i + 1)).

Definition startRequests (requestsCount : Z) : list Request :=
  List.map (fun i => mkRequest (pageUrl i) None) (seq 0 (Z.to_nat requestsCount)).

(** ** External calls and programs *)

Inductive LogLine : Type :=
| InfoChargedRental
| InfoParallelRunWasFirst
| InfoNotFirstRun
| DebugCountUpdated (count quota : Z)
| InfoPushingFree (count quota : Z)
| InfoNoMoreFree (count quota : Z)
| WarnLimitReached.

(** The two callbacks the script registers: the one-shot rental re-check
    ([setTimeout]) and the periodic refresh of the counter ([setInterval]). *)
Inductive Callback : Type := RentalRecheck | RefreshCount.

Inductive Exn : Type := TypeError | StoreError.

(** One constructor per call of the script that leaves the module: the
    platform ([Actor.*]), the bookkeeping dataset client, the timers, the
    crawler, and reads and writes of the two module-level [let] variables. *)
Inductive Call : Type -> Type :=
| GetInput : Call (option Input)
| ActorRunId : Call string
| Now : Call string
| ListItems : Call (list BookkeepingRecord)
| PushItems (data : list BookkeepingRecord) : Call unit
| Charge (eventName : ChargeEvent) (count : Z) : Call bool
| PushData (url : option string) : Call unit
| Log (line : LogLine) : Call unit
| Sleep (ms : Z) : Call unit
| SetTimeout (cb : Callback) (ms : Z) : Call unit
| SetInterval (cb : Callback) (ms : Z) : Call unit
| Teardown : Call unit
| WriteItems (items : list BookkeepingRecord) : Call unit
| ReadItems : Call (list BookkeepingRecord)
| WriteCount (n : Z) : Call unit
| IncrCount : Call Z.

Inductive Prog (A : Type) : Type :=
| Ret (a : A)
| Throw (e : Exn)
| Vis {R : Type} (c : Call R) (k : R -> Prog A).

Arguments Ret {A} a.
Arguments Throw {A} e.
Arguments Vis {A R} c k.

Fixpoint bind {A B : Type} (m : Prog A) (f : A -> Prog B) : Prog B :=
  match m with
  | Ret a => f a
  | Throw e => Throw e
  | Vis c k => Vis c (fun r => bind (k r) f)
  end.

Definition call {R : Type} (c : Call R) : Prog R := Vis c Ret.

Declare Scope prog_scope.
Delimit Scope prog_scope with prog.
Bind Scope prog_scope with Prog.

Notation "x <- m ;; k" := (bind m (fun x => k))
  (at level 100, m at next level, right associativity) : prog_scope.
Notation "m ;; k" := (bind m (fun _ => k))
  (at level 100, right associativity) : prog_scope.

Open Scope prog_scope.

(** ** The script *)

Definition getBookkeepingItems : Prog (list BookkeepingRecord) := call ListItems.

Definition pushBookkeepingData (data : list BookkeepingRecord) : Prog unit :=
  call (PushItems data).

(** The body of the [setTimeout] callback. *)
Definition rentalRecheck : Prog unit :=
  items <- getBookkeepingItems ;;
  call (WriteItems items) ;;
  runId <- call ActorRunId ;;
  if isThisReallyFirstRun items runId then
    call (Log InfoChargedRental) ;;
    _ <- call (Charge rental 1) ;;
    Ret tt
  else
    call (Log InfoParallelRunWasFirst).

(** Lines 56 to 87: the first listing and the claim of the month. *)
Definition rentalStartup : Prog unit :=
  items <- getBookkeepingItems ;;
  call (WriteItems items) ;;
  if negb (wasAlreadyRunThisMonth items) then
    runId <- call ActorRunId ;;
    ts <- call Now ;;
    pushBookkeepingData [FirstMonthRunRecord runId ts] ;;
    call (SetTimeout RentalRecheck SAFE_RENTAL_RECHECK_WAIT_MS)
  else
    call (Log InfoNotFirstRun).

Definition getPushedFreeResultsCount : Prog Z :=
  items <- getBookkeepingItems ;;
  Ret (sumBookkeepingPushedResultsCount items).

(** The body of the [setInterval] callback. *)
Definition refreshCount (prepaid : Z) : Prog unit :=
  n <- getPushedFreeResultsCount ;;
  call (WriteCount n) ;;
  call (Log (DebugCountUpdated n prepaid)).

(** Lines 102 to 116: the counter is seeded from the listing taken at
    startup, then the periodic refresh is registered. *)
Definition quotaStartup : Prog unit :=
  items <- call ReadItems ;;
  call (WriteCount (sumBookkeepingPushedResultsCount items)) ;;
  call (SetInterval RefreshCount REFRESH_INTERVAL_MS).

Record Config : Type := mkConfig {
  cfgRequestsCount : Z;
  cfgPrepaidRentalResultsCount : Z
}.

(** [const { requestsCount = 50, prepaidRentalResultsCount = 100 } = input!]:
    the non-null assertion is erased at run time, and destructuring [null]
    throws a [TypeError]. *)
Definition readInput : Prog Config :=
  input <- call GetInput ;;
  match input with
  | None => Throw TypeError
  | Some i =>
      Ret (mkConfig (default 50 (requestsCount i))
                    (default 100 (prepaidRentalResultsCount i)))
  end.

(** The script up to the construction of the crawler.  [Actor.init], the
    creation of the dataset client for the dataset named after the month
    and the user, and the proxy configuration are left out: [ledger] below
    stands for that dataset. *)
Definition startup : Prog Config :=
  cfg <- readInput ;;
  rentalStartup ;;
  quotaStartup ;;
  Ret cfg.

Definition requestHandler (prepaid : Z) (request : Request) : Prog unit :=
  call (Sleep 1000) ;;
  call (PushData (loadedUrl request)) ;;
  n <- call IncrCount ;;
  if (n <? prepaid)%Z then
    call (Log (InfoPushingFree n prepaid)) ;;
    runId <- call ActorRunId ;;
    ts <- call Now ;;
    pushBookkeepingData [ItemsPushedRecord 1 runId ts]
  else
    call (Log (InfoNoMoreFree n prepaid)) ;;
    limitReached <- call (Charge result 1) ;;
    if limitReached : bool then
      call (Log WarnLimitReached) ;;
      call Teardown
    else
      Ret tt.

Definition callbackBody (prepaid : Z) (cb : Callback) : Prog unit :=
  match cb with
  | RentalRecheck => rentalRecheck
  | RefreshCount => refreshCount prepaid
  end.

(** ** The world the script runs in *)

(** What the platform answers: the identity of the run, the input, whether
    the [n]th call to the bookkeeping dataset succeeds, whether the [n]th
    charge reports that the charge limit was reached, and the time read
    after [n] observable effects. *)
Record Env : Type := mkEnv {
  actorRunId : string;
  actorInput : option Input;
  storeOk : nat -> bool;
  chargeLimitReached : nat -> bool;
  clock : nat -> string
}.

(** The observable effects of a run, oldest first. *)
Inductive Event : Type :=
| EvListItems
| EvPushItems (data : list BookkeepingRecord)
| EvCharge (eventName : ChargeEvent) (count : Z)
| EvPushData (url : option string)
| EvLog (line : LogLine)
| EvSleep (ms : Z)
| EvSetTimeout (cb : Callback) (ms : Z)
| EvSetInterval (cb : Callback) (ms : Z)
| EvTeardown.

(** [ledger] is the bookkeeping dataset of the month and user (shared with
    the other runs of the user); [bookkeepingItems] and
    [bookkeepingPushedResultsCount] are the module-level variables of this
    run; [tornDown] is set once [crawler.teardown()] was called. *)
Record World : Type := mkWorld {
  ledger : list BookkeepingRecord;
  trace : list Event;
  bookkeepingItems : list BookkeepingRecord;
  bookkeepingPushedResultsCount : Z;
  tornDown : bool;
  storeCalls : nat;
  chargeCalls : nat
}.

Definition emit (e : Event) (w : World) : World :=
  mkWorld (ledger w) (trace w ++ [e]) (bookkeepingItems w)
          (bookkeepingPushedResultsCount w) (tornDown w) (storeCalls w) (chargeCalls w).

Definition withLedger (l : list BookkeepingRecord) (w : World) : World :=
  mkWorld l (trace w) (bookkeepingItems w)
          (bookkeepingPushedResultsCount w) (tornDown w) (storeCalls w) (chargeCalls w).

Definition withItems (items : list BookkeepingRecord) (w : World) : World :=
  mkWorld (ledger w) (trace w) items
          (bookkeepingPushedResultsCount w) (tornDown w) (storeCalls w) (chargeCalls w).

Definition withCount (n : Z) (w : World) : World :=
  mkWorld (ledger w) (trace w) (bookkeepingItems w) n
          (tornDown w) (storeCalls w) (chargeCalls w).

Definition withTornDown (w : World) : World :=
  mkWorld (ledger w) (trace w) (bookkeepingItems w)
          (bookkeepingPushedResultsCount w) true (storeCalls w) (chargeCalls w).

Definition tickStore (w : World) : World :=
  mkWorld (ledger w) (trace w) (bookkeepingItems w)
          (bookkeepingPushedResultsCount w) (tornDown w) (S (storeCalls w)) (chargeCalls w).

Definition tickCharge (w : World) : World :=
  mkWorld (ledger w) (trace w) (bookkeepingItems w)
          (bookkeepingPushedResultsCount w) (tornDown w) (storeCalls w) (S (chargeCalls w)).

Inductive Outcome (A : Type) : Type :=
| Returned (a : A)
| Threw (e : Exn).

Arguments Returned {A} a.
Arguments Threw {A} e.

Section Interpreter.

Context (env : Env).

(** One external call against the world.  A call to the bookkeeping
    dataset that fails throws and leaves the dataset as it was; the other
    calls are taken to succeed. *)
Definition perform {R : Type} (c : Call R) (w : World) : Outcome R * World :=
  match c in Call R return Outcome R * World with
  | GetInput => (Returned (actorInput env), w)
  | ActorRunId => (Returned (actorRunId env), w)
  | Now => (Returned (clock env (length (trace w))), w)
  | ListItems =>
      if storeOk env (storeCalls w)
      then (Returned (ledger w), emit EvListItems (tickStore w))
      else (Threw StoreError, tickStore w)
  | PushItems data =>
      if storeOk env (storeCalls w)
      then (Returned tt, emit (EvPushItems data) (withLedger (ledger w ++ data) (tickStore w)))
      else (Threw StoreError, tickStore w)
  | Charge eventName n =>
      (Returned (chargeLimitReached env (chargeCalls w)),
       emit (EvCharge eventName n) (tickCharge w))
  | PushData u => (Returned tt, emit (EvPushData u) w)
  | Log line => (Returned tt, emit (EvLog line) w)
  | Sleep ms => (Returned tt, emit (EvSleep ms) w)
  | SetTimeout cb ms => (Returned tt, emit (EvSetTimeout cb ms) w)
  | SetInterval cb ms => (Returned tt, emit (EvSetInterval cb ms) w)
  | Teardown => (Returned tt, emit EvTeardown (withTornDown w))
  | WriteItems items => (Returned tt, withItems items w)
  | ReadItems => (Returned (bookkeepingItems w), w)
  | WriteCount n => (Returned tt, withCount n w)
  | IncrCount =>
      (Returned (bookkeepingPushedResultsCount w + 1),
       withCount (bookkeepingPushedResultsCount w + 1) w)
  end.

(** A program run to its end with nothing interleaved. *)
Fixpoint run {A : Type} (p : Prog A) (w : World) : Outcome A * World :=
  match p with
  | Ret a => (Returned a, w)
  | Throw e => (Threw e, w)
  | Vis c k =>
      match perform c w with
      | (Returned r, w') => run (k r) w'
      | (Threw e, w') => (Threw e, w')
      end
  end.

End Interpreter.

Definition initialWorld (l : list BookkeepingRecord) : World :=
  mkWorld l [] [] 0 false 0%nat 0%nat.

Definition isCharge (eventName : ChargeEvent) (e : Event) : bool :=
  match e, eventName with
  | EvCharge rental _, rental => true
  | EvCharge result _, result => true
  | _, _ => false
  end.

Definition isPushData (e : Event) : bool :=
  match e with EvPushData _ => true | _ => false end.

(** The calls of [Actor.charge] for one event name, in order. *)
Definition charges (eventName : ChargeEvent) (t : list Event) : list Event :=
  List.filter (isCharge eventName) t.

(** ** One run processing its requests one after the other *)

Inductive Decision : Type := Free | Paid.

(** The decision a handler took is read off its effects: a free result
    appends an items-pushed record, a paid one calls [Actor.charge] for
    'result'. *)
Definition decisionOf (e : Event) : option Decision :=
  match e with
  | EvPushItems [ItemsPushedRecord _ _ _] => Some Free
  | EvCharge result _ => Some Paid
  | _ => None
  end.

Definition decisions (t : list Event) : list Decision :=
  omap decisionOf t.

(** What one run does next when nothing overlaps: hand a request to the
    handler and let it finish, or let one periodic refresh list the dataset
    and overwrite the counter with no handler step in between. *)
Inductive Turn : Type :=
| Item (request : Request)
| Refresh.

(** Every turn runs to its end before the next one starts; once the
    crawler was torn down no request is handed out any more.  A refresh
    whose listing and overwrite are separated by a handler step (the
    callback awaits its listing, line 112) is not a turn of this crawl, nor
    is the rental re-check; handlers that overlap are those of [poolStep]. *)
Fixpoint crawlSequential (env : Env) (prepaid : Z) (turns : list Turn) (w : World) : World :=
  match turns with
  | [] => w
  | Item request :: rest =>
      if tornDown w then crawlSequential env prepaid rest w
      else crawlSequential env prepaid rest (snd (run env (requestHandler prepaid request) w))
  | Refresh :: rest =>
      crawlSequential env prepaid rest (snd (run env (refreshCount prepaid) w))
  end.

Definition isItem (t : Turn) : bool :=
  match t with Item _ => true | Refresh => false end.

(** The whole script with a sequential crawler: startup, then the start
    requests in order. *)
Definition mainSequential (env : Env) (w : World) : Outcome unit * World :=
  match run env startup w with
  | (Returned cfg, w') =>
      (Returned tt,
       crawlSequential env (cfgPrepaidRentalResultsCount cfg)
         (List.map Item (startRequests (cfgRequestsCount cfg))) w')
  | (Threw e, w') => (Threw e, w')
  end.

(** The decision the source takes for the [k]th result of the month seen by
    an up-to-date counter: free while the incremented counter is below the
    allowance. *)
Definition decisionAt (prepaid : Z) (k : nat) : Decision :=
  if (Z.of_nat k <? prepaid)%Z then Free else Paid.

Definition count_occ_decision (d : Decision) (l : list Decision) : nat :=
  length (List.filter (fun x => match x, d with Free, Free | Paid, Paid => true | _, _ => false end) l).

(** ** The crawler: request handlers in flight *)

(** The crawler holds the requests not yet handed out and the handler
    invocations in flight, each suspended at its next call.  The crawler
    itself is the library's; what is modelled of it is that it starts
    handlers while it runs, at most [maxConcurrency] at a time, and starts
    none once it was torn down. *)
Record Pool : Type := mkPool {
  poolWorld : World;
  poolQueue : list Request;
  poolInFlight : list (Prog unit)
}.

Inductive Label : Type :=
| LStart (request : Request)
| LCall (i : nat)
| LEnd (i : nat).

Definition isStart (l : Label) : bool :=
  match l with LStart _ => true | _ => false end.

(** One step of the crawl: a request is handed to a new handler
    invocation; a handler in flight makes its next call and goes on with
    the answer; a handler ends, by returning or by an error.  The end of
    the process is a step of [procStep]. *)
Inductive poolStep (env : Env) (prepaid : Z) : Pool -> Label -> Pool -> Prop :=
| step_start w request q fl loaded :
    tornDown w = false ->
    (length fl < maxConcurrency)%nat ->
    poolStep env prepaid
      (mkPool w (request :: q) fl)
      (LStart request)
      (mkPool w q (fl ++ [requestHandler prepaid (mkRequest (url request) loaded)]))
| step_call w q fl i (R : Type) (c : Call R) k a w' :
    fl !! i = Some (Vis c k) ->
    perform env c w = (Returned a, w') ->
    poolStep env prepaid (mkPool w q fl) (LCall i) (mkPool w' q (<[i := k a]> fl))
| step_call_throws w q fl i (R : Type) (c : Call R) (k : R -> Prog unit) e w' :
    fl !! i = Some (Vis c k) ->
    perform env c w = (Threw e, w') ->
    poolStep env prepaid (mkPool w q fl) (LEnd i) (mkPool w' q (delete i fl))
| step_returned w q fl i :
    fl !! i = Some (Ret tt) ->
    poolStep env prepaid (mkPool w q fl) (LEnd i) (mkPool w q (delete i fl))
| step_thrown w q fl i e :
    fl !! i = Some (Throw e) ->
    poolStep env prepaid (mkPool w q fl) (LEnd i) (mkPool w q (delete i fl)).

Inductive poolRun (env : Env) (prepaid : Z) : Pool -> list Label -> Pool -> Prop :=
| poolRun_nil p : poolRun env prepaid p [] p
| poolRun_cons p l p' ls p'' :
    poolStep env prepaid p l p' ->
    poolRun env prepaid p' ls p'' ->
    poolRun env prepaid p (l :: ls) p''.

(** ** Several runs of one user racing in one month *)

(** Where a run stands with the rental charge: before its first listing;
    after a first listing without a first-month-run record and before its
    own record is appended; waiting for the re-check; and the two ends. *)
Inductive Phase : Type :=
| Unchecked
| Claiming
| Pending
| Charged
| Skipped.

(** Runs are keyed by their run id, which the platform makes unique.
    [sysCharges] lists the runs that called [Actor.charge] for 'rental'. *)
Record System : Type := mkSystem {
  sysLedger : list BookkeepingRecord;
  sysRuns : gmap string Phase;
  sysCharges : list string
}.

(** The two listings of a run: the one at startup (line 56) and the one
    of its re-check (line 72). *)
Inductive Listing : Type :=
| FirstListing (runId : string)
| RecheckListing (runId : string).

(** What a listing may return of the dataset as appended so far. *)
Definition Visibility : Type :=
  Listing -> list BookkeepingRecord -> list BookkeepingRecord -> Prop.

(** Some records appended so far may not be visible yet, in any listing. *)
Definition delayed : Visibility := fun _ store view => sublist view store.

(** No visibility delay outlasts the settle delay: the listing of a
    re-check shows, in append order, every record appended up to and
    including the record of the run itself, which was appended before the
    timer was set; what it shows of the records appended after that one is
    left open.  A first listing may return anything, however stale. *)
Definition settled : Visibility := fun which store view =>
  match which with
  | FirstListing _ => True
  | RecheckListing r =>
      exists before ts later shown,
        store = before ++ FirstMonthRunRecord r ts :: later /\
        view = before ++ FirstMonthRunRecord r ts :: shown
  end.

Definition afterFirstListing (view : list BookkeepingRecord) : Phase :=
  if wasAlreadyRunThisMonth view then Skipped else Claiming.

(** One step of one run, cut at the awaits of the script: a run starts;
    its first listing returns (line 56) and [wasAlreadyRunThisMonth]
    decides; its record is appended (line 63); its re-check lists the
    dataset (line 72) and, in the same turn of the event loop, charges or
    not by [isThisReallyFirstRun]; a request handler appends an
    items-pushed record (line 141). *)
Inductive sysStep (V : Visibility) : System -> System -> Prop :=
| sys_start l runs cs r :
    runs !! r = None ->
    sysStep V (mkSystem l runs cs) (mkSystem l (<[r := Unchecked]> runs) cs)
| sys_first_listing l runs cs r view :
    runs !! r = Some Unchecked ->
    V (FirstListing r) l view ->
    sysStep V (mkSystem l runs cs)
              (mkSystem l (<[r := afterFirstListing view]> runs) cs)
| sys_append_marker l runs cs r ts :
    runs !! r = Some Claiming ->
    sysStep V (mkSystem l runs cs)
              (mkSystem (l ++ [FirstMonthRunRecord r ts]) (<[r := Pending]> runs) cs)
| sys_recheck_charge l runs cs r view :
    runs !! r = Some Pending ->
    V (RecheckListing r) l view ->
    isThisReallyFirstRun view r = true ->
    sysStep V (mkSystem l runs cs)
              (mkSystem l (<[r := Charged]> runs) (cs ++ [r]))
| sys_recheck_skip l runs cs r view :
    runs !! r = Some Pending ->
    V (RecheckListing r) l view ->
    isThisReallyFirstRun view r = false ->
    sysStep V (mkSystem l runs cs)
              (mkSystem l (<[r := Skipped]> runs) cs)
| sys_append_usage l runs cs r ph ts :
    runs !! r = Some ph ->
    sysStep V (mkSystem l runs cs)
              (mkSystem (l ++ [ItemsPushedRecord 1 r ts]) runs cs).

Inductive sysReach (V : Visibility) : System -> Prop :=
| reach_init : sysReach V (mkSystem [] ∅ [])
| reach_step s s' : sysReach V s -> sysStep V s s' -> sysReach V s'.

(** ** The period marker the specification calls authoritative *)

(** The first-month-run record with the lowest timestamp, the first one
    seen in the listing among equals.  Timestamps are the fixed-width
    strings of [toISOString], ordered as strings. *)
Fixpoint authoritativeByTimestamp
    (listing : list BookkeepingRecord) (best : option BookkeepingRecord)
  : option BookkeepingRecord :=
  match listing with
  | [] => best
  | item :: rest =>
      if isFirstMonthRun item then
        match best with
        | None => authoritativeByTimestamp rest (Some item)
        | Some b =>
            if String.ltb (recordTimestamp item) (recordTimestamp b)
            then authoritativeByTimestamp rest (Some item)
            else authoritativeByTimestamp rest best
        end
      else authoritativeByTimestamp rest best
  end.

(** ** The script after one of its calls returned *)

Definition usageRecord (env : Env) (w : World) : BookkeepingRecord :=
  ItemsPushedRecord 1 (actorRunId env) (clock env (S (S (S (length (trace w)))))).

Definition ownMarker (env : Env) (w : World) : BookkeepingRecord :=
  FirstMonthRunRecord (actorRunId env) (clock env (S (length (trace w)))).

(** What the refresh does once its listing has returned [items]. *)
Definition refreshAfterListing (prepaid : Z) (items : list BookkeepingRecord) : Prog unit :=
  call (WriteCount (sumBookkeepingPushedResultsCount items)) ;;
  call (Log (DebugCountUpdated (sumBookkeepingPushedResultsCount items) prepaid)).

(** What the handler does with the answer of [Actor.charge]. *)
Definition afterCharge (limitReached : bool) : Prog unit :=
  if limitReached then call (Log WarnLimitReached) ;; call Teardown else Ret tt.

(** What the handler does with the incremented counter [n]. *)
Definition afterIncrement (prepaid : Z) (n : Z) : Prog unit :=
  if (n <? prepaid)%Z then
    call (Log (InfoPushingFree n prepaid)) ;;
    runId <- call ActorRunId ;;
    ts <- call Now ;;
    pushBookkeepingData [ItemsPushedRecord 1 runId ts]
  else
    call (Log (InfoNoMoreFree n prepaid)) ;;
    limitReached <- call (Charge result 1) ;;
    afterCharge limitReached.

(** ** Invariants *)

(** After [k] results: the dataset holds one record per free result, the
    counter is exact while results are free and never falls behind the
    dataset, and the decisions so far are those of [decisionAt]. *)
Record SeqInv (prepaid : Z) (k : nat) (w : World) : Prop := mkSeqInv {
  inv_sum : sumBookkeepingPushedResultsCount (ledger w)
            = Z.min (Z.of_nat k) (Z.max (prepaid - 1) 0);
  inv_exact : Z.of_nat k < prepaid -> bookkeepingPushedResultsCount w = Z.of_nat k;
  inv_ahead : sumBookkeepingPushedResultsCount (ledger w) <= bookkeepingPushedResultsCount w;
  inv_decisions : decisions (trace w) = List.map (decisionAt prepaid) (seq 1 k);
  inv_running : tornDown w = false
}.

Definition itemsIn (turns : list Turn) : nat := length (List.filter isItem turns).

(** Every run that charged is in phase [Charged] and is the run of the
    first first-month-run record of the dataset; no run charged twice. *)
Record SysInv (s : System) : Prop := mkSysInv {
  inv_charged : forall r, r ∈ sysCharges s ->
      sysRuns s !! r = Some Charged /\
      exists m, List.find isFirstMonthRun (sysLedger s) = Some m /\ recordRunId m = r;
  inv_nodup : NoDup (sysCharges s)
}.

(** ** The claims in the words of the specification *)

(** The sum of [count] over all usage records of a listing, as the
    specification words it: record by record, a period marker adding
    nothing.  The source computes it by a filter and a reduce,
    [sumBookkeepingPushedResultsCount]. *)
Fixpoint usageCountTotal (listing : list BookkeepingRecord) : Z :=
  match listing with
  | [] => 0
  | ItemsPushedRecord count _ _ :: rest => count + usageCountTotal rest
  | FirstMonthRunRecord _ _ :: rest => usageCountTotal rest
  end.

(** The claim of C4 in the terms of the model: the first listing shows no
    first-month-run record, the run's record is appended, and the listing
    [L] of the re-check shows no first-month-run record of another run;
    then startup and re-check call [Actor.charge] for 'rental' once. *)
Definition uncontestedRunCharges
    (env : Env) (w : World) (L : list BookkeepingRecord) : Prop :=
  storeOk env (storeCalls w) = true ->
  wasAlreadyRunThisMonth (ledger w) = false ->
  storeOk env (S (storeCalls w)) = true ->
  storeOk env (S (S (storeCalls w))) = true ->
  (forall m, In m L -> isFirstMonthRun m = true -> recordRunId m = actorRunId env) ->
  charges rental
    (trace (snd (run env rentalRecheck (withLedger L (snd (run env rentalStartup w))))))
  = charges rental (trace w) ++ [EvCharge rental 1].

(** The claim of C6 in the terms of the model: startup throws, and no call
    to the bookkeeping dataset was made. *)
Definition rejectedAtStartup (env : Env) (w : World) : Prop :=
  exists e w', run env startup w = (Threw e, w') /\ storeCalls w' = storeCalls w.

(** The claim of C5 in the terms of the model: the step returns normally
    and leaves a log line. *)
Definition handledLocally (w : World) (r : Outcome unit * World) : Prop :=
  fst r = Returned tt /\
  exists line t, trace (snd r) = trace w ++ t /\ In (EvLog line) t.

(** The claim of C2 in the terms of the model: a run whose record is not
    the one with the lowest timestamp does not charge in its re-check. *)
Definition lowestTimestampDecides (env : Env) (w : World) : Prop :=
  forall m,
    authoritativeByTimestamp (ledger w) None = Some m ->
    recordRunId m <> actorRunId env ->
    charges rental (trace (snd (run env rentalRecheck w))) = charges rental (trace w).

(** The claim of C3 in the terms of the model. *)
Definition atMostOneRentalCharge (V : Visibility) : Prop :=
  forall s, sysReach V s -> (length (sysCharges s) <= 1)%nat.

(** ** Environments, worlds and datasets used in examples *)

Definition nofaults : nat -> bool := fun _ => true.
Definition nolimit : nat -> bool := fun _ => false.
Definition epoch : nat -> string := fun _ => "2024-05-01T00:00:00.000Z".

Definition demoEnv (input : option Input) : Env :=
  mkEnv "run-A" input nofaults nolimit epoch.

Definition allowanceScenario : World :=
  snd (mainSequential (demoEnv (Some (mkInput (Some 150) None))) (initialWorld [])).

Definition refreshDemoWorld : World :=
  mkWorld [FirstMonthRunRecord "run-A" "t0"; ItemsPushedRecord 1 "run-A" "t1";
           ItemsPushedRecord 1 "run-B" "t2"; ItemsPushedRecord 1 "run-A" "t3"]
          [] [] 7 false 0%nat 0%nat.

(** The first call to the bookkeeping dataset succeeds, the later ones fail. *)
Definition failAfterFirst : nat -> bool := fun n => Nat.eqb n 0.
Definition failAlways : nat -> bool := fun _ => false.

Definition faultyEnv (ok : nat -> bool) : Env := mkEnv "run-A" None ok nolimit epoch.

(** The record of run-A carries the lower timestamp but reached the
    dataset after the record of run-B. *)
Definition lateArrival : list BookkeepingRecord :=
  [FirstMonthRunRecord "run-B" "2024-05-01T00:00:05.000Z";
   FirstMonthRunRecord "run-A" "2024-05-01T00:00:01.000Z"].

Definition envOf (rid : string) : Env := mkEnv rid None nofaults nolimit epoch.

Definition waitingRequest : Request := mkRequest "https://example.com/page-2" None.

Definition markerA : BookkeepingRecord :=
  FirstMonthRunRecord "run-A" "2024-05-01T00:00:00.000Z".
Definition markerB : BookkeepingRecord :=
  FirstMonthRunRecord "run-B" "2024-05-01T00:00:00.100Z".

(** Two runs start together, both list an empty dataset and append their
    record; at its re-check run-B is shown its own record only. *)
Definition raceRuns (a b : Phase) : gmap string Phase :=
  <["run-B" := b]> (<["run-A" := a]> ∅).

Definition cappedEnv : Env := mkEnv "run-A" None nofaults (fun _ => true) epoch.

Definition firstRequest : Request := mkRequest "https://example.com/page-1" None.

(** ** Handlers in flight, one call at a time *)

(** One call of a suspended handler: the program it goes on with, if any,
    and the world after the call.  This is the step [poolStep] takes for a
    handler in flight. *)
Definition stepTask (env : Env) (t : Prog unit) (w : World) : option (Prog unit) * World :=
  match t with
  | Ret _ => (None, w)
  | Throw _ => (None, w)
  | Vis c k =>
      match perform env c w with
      | (Returned a, w') => (Some (k a), w')
      | (Threw _, w') => (None, w')
      end
  end.

(** Where a handler invocation stands with the allowance: before its
    increment of the counter; after an increment that found the counter
    below the allowance and before its items-pushed record is appended;
    anywhere else. *)
Inductive HandlerStage : Type := BeforeIncrement | FreePending | Settled.

Definition pendingFree (s : HandlerStage) : Z :=
  match s with FreePending => 1 | _ => 0 end.

Fixpoint pendingFreeSum (tags : list HandlerStage) : Z :=
  match tags with
  | [] => 0
  | s :: rest => pendingFree s + pendingFreeSum rest
  end.

(** The programs a handler invocation goes through, from
    [requestHandler] on, with the stage of each. *)
Inductive Stage (prepaid : Z) : Prog unit -> HandlerStage -> Prop :=
| stage_sleep u :
    Stage prepaid
      (Vis (Sleep 1000) (fun _ => Vis (PushData u) (fun _ =>
         Vis IncrCount (afterIncrement prepaid)))) BeforeIncrement
| stage_push_data u :
    Stage prepaid
      (Vis (PushData u) (fun _ => Vis IncrCount (afterIncrement prepaid))) BeforeIncrement
| stage_increment :
    Stage prepaid (Vis IncrCount (afterIncrement prepaid)) BeforeIncrement
| stage_free n :
    n < prepaid -> Stage prepaid (afterIncrement prepaid n) FreePending
| stage_free_run_id :
    Stage prepaid
      (Vis ActorRunId (fun runId => Vis Now (fun ts =>
         pushBookkeepingData [ItemsPushedRecord 1 runId ts]))) FreePending
| stage_free_now runId :
    Stage prepaid
      (Vis Now (fun ts => pushBookkeepingData [ItemsPushedRecord 1 runId ts])) FreePending
| stage_free_append runId ts :
    Stage prepaid (pushBookkeepingData [ItemsPushedRecord 1 runId ts]) FreePending
| stage_paid n :
    prepaid <= n -> Stage prepaid (afterIncrement prepaid n) Settled
| stage_charge :
    Stage prepaid (Vis (Charge result 1) afterCharge) Settled
| stage_after_charge b :
    Stage prepaid (afterCharge b) Settled
| stage_teardown :
    Stage prepaid (call Teardown) Settled
| stage_end :
    Stage prepaid (Ret tt) Settled.

(** The free results granted so far, and the part of the allowance the
    counter has used up. *)
Definition freeGranted (w : World) : Z :=
  Z.of_nat (count_occ_decision Free (decisions (trace w))).

Definition allowanceLeft (prepaid : Z) (w : World) : Z :=
  Z.min (bookkeepingPushedResultsCount w) (prepaid - 1).

(** Every handler in flight is at a stage of [requestHandler], and the
    free results granted or pending stay within what the counter moved. *)
Definition PoolInv (prepaid bound : Z) (p : Pool) : Prop :=
  exists tags,
    Forall2 (Stage prepaid) (poolInFlight p) tags /\
    freeGranted (poolWorld p) + pendingFreeSum tags
      - allowanceLeft prepaid (poolWorld p) <= bound.

(** ** Handlers in flight and the charge limit *)

(** Where a handler invocation stands with its decision and with the
    charge limit: its decision is still to come; its charge was answered,
    with the limit reached or not; it is at its call of
    [crawler.teardown()]; it is at its end. *)
Inductive HandlerPoint : Type :=
| Undecided
| Answered (limitReached : bool)
| TearingDown
| Ended.

(** The decisions a handler at this point can still take, and whether it
    is about to tear the crawler down. *)
Definition decisionsLeft (pt : HandlerPoint) : Z :=
  match pt with Undecided => 1 | _ => 0 end.

Definition tearsDown (pt : HandlerPoint) : Z :=
  match pt with Answered true | TearingDown => 1 | _ => 0 end.

Fixpoint weightSum (f : HandlerPoint -> Z) (pts : list HandlerPoint) : Z :=
  match pts with
  | [] => 0
  | pt :: rest => f pt + weightSum f rest
  end.

(** The programs a handler invocation goes through, from
    [requestHandler] on, with the point of each. *)
Inductive AtPoint (prepaid : Z) : Prog unit -> HandlerPoint -> Prop :=
| at_sleep u :
    AtPoint prepaid
      (Vis (Sleep 1000) (fun _ => Vis (PushData u) (fun _ =>
         Vis IncrCount (afterIncrement prepaid)))) Undecided
| at_push_data u :
    AtPoint prepaid
      (Vis (PushData u) (fun _ => Vis IncrCount (afterIncrement prepaid))) Undecided
| at_increment :
    AtPoint prepaid (Vis IncrCount (afterIncrement prepaid)) Undecided
| at_incremented n :
    AtPoint prepaid (afterIncrement prepaid n) Undecided
| at_free_run_id :
    AtPoint prepaid
      (Vis ActorRunId (fun runId => Vis Now (fun ts =>
         pushBookkeepingData [ItemsPushedRecord 1 runId ts]))) Undecided
| at_free_now runId :
    AtPoint prepaid
      (Vis Now (fun ts => pushBookkeepingData [ItemsPushedRecord 1 runId ts])) Undecided
| at_free_append runId ts :
    AtPoint prepaid (pushBookkeepingData [ItemsPushedRecord 1 runId ts]) Undecided
| at_charge :
    AtPoint prepaid (Vis (Charge result 1) afterCharge) Undecided
| at_answered b :
    AtPoint prepaid (afterCharge b) (Answered b)
| at_teardown :
    AtPoint prepaid (call Teardown) TearingDown
| at_end :
    AtPoint prepaid (Ret tt) Ended.

(** The decisions taken so far, free or paid. *)
Definition decisionsTaken (w : World) : Z := Z.of_nat (length (decisions (trace w))).

(** Some call of [Actor.charge] made since the [from]th was answered that
    the charge limit was reached. *)
Definition limitAnswered (env : Env) (from : nat) (w : World) : Prop :=
  exists n, (from <= n < chargeCalls w)%nat /\ chargeLimitReached env n = true.

(** A handler that was answered that the limit was reached and has not
    yet called [crawler.teardown()]: its next calls are the warning and
    the teardown, or the teardown. *)
Definition aboutToTearDown (t : Prog unit) : Prop :=
  t = afterCharge true \/ t = call Teardown.

(** Every handler in flight is at a point of [requestHandler]; the crawler
    is torn down or about to be exactly when a charge was answered that
    the limit was reached. *)
Definition CrawlInv (env : Env) (prepaid : Z) (c0 : nat) (p : Pool) : Prop :=
  exists pts,
    Forall2 (AtPoint prepaid) (poolInFlight p) pts /\
    (c0 <= chargeCalls (poolWorld p))%nat /\
    (limitAnswered env c0 (poolWorld p) <->
     tornDown (poolWorld p) = true \/ 0 < weightSum tearsDown pts).

(** The decisions handlers in flight can still take. *)
Definition DecisionsInv (prepaid bound : Z) (p : Pool) : Prop :=
  exists pts,
    Forall2 (AtPoint prepaid) (poolInFlight p) pts /\
    decisionsTaken (poolWorld p) + weightSum decisionsLeft pts <= bound.

(** ** The process of a run *)

(** [await crawler.run(startRequests)] (line 161) has returned: the
    crawler was torn down, which ends the run of its pool at once whatever
    is in flight, or every request was handled. *)
Definition crawlerRunReturned (p : Pool) : Prop :=
  tornDown (poolWorld p) = true \/ (poolQueue p = [] /\ poolInFlight p = []).

(** The process of one run: crawling, or ended by [Actor.exit()] (line
    163) with the handlers that were in flight cut off. *)
Inductive Process : Type :=
| Running (p : Pool)
| Exited (w : World) (cut : list (Prog unit)).

(** The crawl moves, or [crawler.run] has returned and the script goes on
    to [Actor.exit()], which ends the process; nothing waits for the
    handlers in flight, and nothing runs after the exit. *)
Inductive procStep (env : Env) (prepaid : Z) : Process -> Process -> Prop :=
| proc_crawl p l p' :
    poolStep env prepaid p l p' ->
    procStep env prepaid (Running p) (Running p')
| proc_exit p :
    crawlerRunReturned p ->
    procStep env prepaid (Running p) (Exited (poolWorld p) (poolInFlight p)).

Inductive procReach (env : Env) (prepaid : Z) : Process -> Process -> Prop :=
| procReach_refl s : procReach env prepaid s s
| procReach_step s s' s'' :
    procStep env prepaid s s' -> procReach env prepaid s' s'' ->
    procReach env prepaid s s''.

(** The claim of C8 on the handlers in flight, in the terms of the model:
    the process never ends while a handler is in flight. *)
Definition handlersInFlightComplete (env : Env) (prepaid : Z) (p0 : Pool) : Prop :=
  forall w cut, procReach env prepaid (Running p0) (Exited w cut) -> cut = [].

(** Two requests and a charge limit already reached: both handlers are
    started, then the first one runs up to its teardown. *)
Definition cappedPool : Pool :=
  mkPool (initialWorld []) [firstRequest; waitingRequest] [].

Definition cappedLabels : list Label :=
  [LStart firstRequest; LStart waitingRequest;
   LCall 0%nat; LCall 0%nat; LCall 0%nat; LCall 0%nat;
   LCall 0%nat; LCall 0%nat; LCall 0%nat].

(** * Part II: lemmas and theorems *)

(** ** Tactics *)

(** Unfolding of the interpreter on a program whose next call is known,
    and of the world updates. *)
Ltac run_calls :=
  cbn [run perform call bind getBookkeepingItems pushBookkeepingData fst snd negb].

Ltac world_fields :=
  unfold emit, withLedger, withItems, withCount, withTornDown, tickStore, tickCharge;
  cbn [ledger trace bookkeepingItems bookkeepingPushedResultsCount
       tornDown storeCalls chargeCalls].

Ltac run_norm := repeat (run_calls; world_fields).

Ltac run_norm_in H :=
  repeat
    (cbn [run perform call bind getBookkeepingItems pushBookkeepingData fst snd negb] in H;
     unfold emit, withLedger, withItems, withCount, withTornDown, tickStore, tickCharge in H;
     cbn [ledger trace bookkeepingItems bookkeepingPushedResultsCount
          tornDown storeCalls chargeCalls] in H).

Tactic Notation "run_norm" "in" hyp(H) := run_norm_in H.

Ltac pool_call :=
  eapply poolRun_cons;
  [eapply step_call; [reflexivity|cbn [perform]; reflexivity]|cbn [list_insert insert]].

(** ** The startup on an empty dataset *)

(** Startup of the first run of a month with an empty input object: the
    defaults apply, the run appends its record, and both timers are set. *)
Example startup_demo :
  run (demoEnv (Some (mkInput None None))) startup (initialWorld []) =
  (Returned (mkConfig 50 100),
   mkWorld [FirstMonthRunRecord "run-A" "2024-05-01T00:00:00.000Z"]
           [EvListItems;
            EvPushItems [FirstMonthRunRecord "run-A" "2024-05-01T00:00:00.000Z"];
            EvSetTimeout RentalRecheck 5000;
            EvSetInterval RefreshCount 10000]
           [] 0 false 2%nat 0%nat).
Proof. reflexivity. Qed.

(** ** Properties of the pure helpers *)

Lemma sum_fold_shift (l : list BookkeepingRecord) (a : Z) :
  fold_left
    (fun acc item =>
       match item with
       | ItemsPushedRecord c _ _ => acc + c
       | FirstMonthRunRecord _ _ => acc
       end)%Z l a
  = (a + fold_left
       (fun acc item =>
          match item with
          | ItemsPushedRecord c _ _ => acc + c
          | FirstMonthRunRecord _ _ => acc
          end)%Z l 0)%Z.
Proof.
  revert a. induction l as [|x l IH]; intros a; simpl.
  - lia.
  - rewrite IH. destruct x; [reflexivity|].
    rewrite (IH (0 + count)%Z). lia.
Qed.

Lemma sum_nil : sumBookkeepingPushedResultsCount [] = 0%Z.
Proof. reflexivity. Qed.

Lemma sum_cons_marker r t l :
  sumBookkeepingPushedResultsCount (FirstMonthRunRecord r t :: l)
  = sumBookkeepingPushedResultsCount l.
Proof. reflexivity. Qed.

Lemma sum_cons_pushed c r t l :
  sumBookkeepingPushedResultsCount (ItemsPushedRecord c r t :: l)
  = (c + sumBookkeepingPushedResultsCount l)%Z.
Proof.
  unfold sumBookkeepingPushedResultsCount. simpl.
  rewrite sum_fold_shift. lia.
Qed.

Lemma sum_app l1 l2 :
  sumBookkeepingPushedResultsCount (l1 ++ l2)
  = (sumBookkeepingPushedResultsCount l1 + sumBookkeepingPushedResultsCount l2)%Z.
Proof.
  induction l1 as [|x l1 IH]; simpl.
  - rewrite sum_nil. lia.
  - destruct x.
    + rewrite !sum_cons_marker. exact IH.
    + rewrite !sum_cons_pushed, IH. lia.
Qed.

Lemma find_marker_app l1 l2 :
  List.find isFirstMonthRun (l1 ++ l2) =
  match List.find isFirstMonthRun l1 with
  | Some m => Some m
  | None => List.find isFirstMonthRun l2
  end.
Proof.
  induction l1 as [|x l1 IH]; simpl; [reflexivity|].
  destruct (isFirstMonthRun x); [reflexivity|exact IH].
Qed.

Lemma decisions_app t1 t2 : decisions (t1 ++ t2) = decisions t1 ++ decisions t2.
Proof. unfold decisions. apply omap_app. Qed.

Lemma charges_app ev t1 t2 : charges ev (t1 ++ t2) = charges ev t1 ++ charges ev t2.
Proof. unfold charges. apply List.filter_app. Qed.

(** ** What one handler invocation and one refresh do *)

Section HandlerRuns.

Context (env : Env) (prepaid : Z).

(** The handler on a free result, the bookkeeping dataset answering. *)
Lemma requestHandler_free request w :
  (bookkeepingPushedResultsCount w + 1 < prepaid)%Z ->
  storeOk env (storeCalls w) = true ->
  run env (requestHandler prepaid request) w =
  (Returned tt,
   mkWorld (ledger w ++ [usageRecord env w])
           (trace w ++ [EvSleep 1000; EvPushData (loadedUrl request);
                        EvLog (InfoPushingFree (bookkeepingPushedResultsCount w + 1) prepaid);
                        EvPushItems [usageRecord env w]])
           (bookkeepingItems w) (bookkeepingPushedResultsCount w + 1)
           (tornDown w) (S (storeCalls w)) (chargeCalls w)).
Proof.
  intros Hlt Hok. unfold requestHandler, usageRecord. run_norm.
  apply Z.ltb_lt in Hlt. rewrite Hlt. run_norm. rewrite Hok. run_norm.
  rewrite !length_app; cbn [length].
  replace (length (trace w) + 1 + 1 + 1)%nat with (S (S (S (length (trace w))))) by lia.
  rewrite <- !app_assoc. reflexivity.
Qed.

(** The handler on a free result when the append to the bookkeeping
    dataset fails: the error leaves the handler. *)
Lemma requestHandler_free_fault request w :
  (bookkeepingPushedResultsCount w + 1 < prepaid)%Z ->
  storeOk env (storeCalls w) = false ->
  run env (requestHandler prepaid request) w =
  (Threw StoreError,
   mkWorld (ledger w)
           (trace w ++ [EvSleep 1000; EvPushData (loadedUrl request);
                        EvLog (InfoPushingFree (bookkeepingPushedResultsCount w + 1) prepaid)])
           (bookkeepingItems w) (bookkeepingPushedResultsCount w + 1)
           (tornDown w) (S (storeCalls w)) (chargeCalls w)).
Proof.
  intros Hlt Hok. unfold requestHandler. run_norm.
  apply Z.ltb_lt in Hlt. rewrite Hlt. run_norm. rewrite Hok. run_norm.
  rewrite <- !app_assoc. reflexivity.
Qed.

(** The handler on a paid result. *)
Lemma requestHandler_paid request w :
  (prepaid <= bookkeepingPushedResultsCount w + 1)%Z ->
  run env (requestHandler prepaid request) w =
  (Returned tt,
   if chargeLimitReached env (chargeCalls w) then
     mkWorld (ledger w)
             (trace w ++ [EvSleep 1000; EvPushData (loadedUrl request);
                          EvLog (InfoNoMoreFree (bookkeepingPushedResultsCount w + 1) prepaid);
                          EvCharge result 1; EvLog WarnLimitReached; EvTeardown])
             (bookkeepingItems w) (bookkeepingPushedResultsCount w + 1)
             true (storeCalls w) (S (chargeCalls w))
   else
     mkWorld (ledger w)
             (trace w ++ [EvSleep 1000; EvPushData (loadedUrl request);
                          EvLog (InfoNoMoreFree (bookkeepingPushedResultsCount w + 1) prepaid);
                          EvCharge result 1])
             (bookkeepingItems w) (bookkeepingPushedResultsCount w + 1)
             (tornDown w) (storeCalls w) (S (chargeCalls w))).
Proof.
  intros Hge. unfold requestHandler. run_norm.
  apply Z.ltb_ge in Hge. rewrite Hge. run_norm.
  destruct (chargeLimitReached env (chargeCalls w)); run_norm;
    rewrite <- !app_assoc; reflexivity.
Qed.

(** The refresh, the bookkeeping dataset answering. *)
Lemma refreshCount_ok w :
  storeOk env (storeCalls w) = true ->
  run env (refreshCount prepaid) w =
  (Returned tt,
   mkWorld (ledger w)
           (trace w ++ [EvListItems;
                        EvLog (DebugCountUpdated
                                 (sumBookkeepingPushedResultsCount (ledger w)) prepaid)])
           (bookkeepingItems w) (sumBookkeepingPushedResultsCount (ledger w))
           (tornDown w) (S (storeCalls w)) (chargeCalls w)).
Proof.
  intros Hok. unfold refreshCount, getPushedFreeResultsCount. run_norm.
  rewrite Hok. run_norm.
  rewrite <- !app_assoc. reflexivity.
Qed.

Lemma refreshCount_fault w :
  storeOk env (storeCalls w) = false ->
  run env (refreshCount prepaid) w = (Threw StoreError, tickStore w).
Proof.
  intros Hok. unfold refreshCount, getPushedFreeResultsCount. run_norm.
  rewrite Hok. reflexivity.
Qed.

End HandlerRuns.

(** ** A single run, no other writer, the bookkeeping dataset answering *)

Section Sequential.

Context (env : Env) (prepaid : Z).
Hypothesis store_up : forall n, storeOk env n = true.
Hypothesis no_limit : forall n, chargeLimitReached env n = false.

Lemma SeqInv_item k w request :
  SeqInv prepaid k w ->
  SeqInv prepaid (S k) (snd (run env (requestHandler prepaid request) w)).
Proof.
  intros [Hsum Hex Hah Hdec Hrun].
  destruct (Z_lt_le_dec (bookkeepingPushedResultsCount w + 1) prepaid) as [Hlt|Hge].
  - rewrite (requestHandler_free env prepaid request w Hlt (store_up _)).
    cbn [snd].
    assert (Hk : Z.of_nat k < prepaid).
    { destruct (Z_lt_le_dec (Z.of_nat k) prepaid) as [?|Hk']; [assumption|]. lia. }
    specialize (Hex Hk).
    split; cbn [ledger trace bookkeepingPushedResultsCount tornDown].
    + rewrite sum_app. unfold usageRecord. rewrite sum_cons_pushed, sum_nil. lia.
    + intros _. lia.
    + rewrite sum_app. unfold usageRecord. rewrite sum_cons_pushed, sum_nil. lia.
    + rewrite decisions_app, Hdec. rewrite seq_S, List.map_app.
      f_equal. cbn [List.map]. unfold decisionAt.
      replace (Z.of_nat (1 + k)) with (bookkeepingPushedResultsCount w + 1) by lia.
      apply Z.ltb_lt in Hlt. rewrite Hlt. reflexivity.
    + exact Hrun.
  - rewrite (requestHandler_paid env prepaid request w Hge).
    rewrite no_limit. cbn [snd].
    assert (Hk : prepaid <= Z.of_nat k + 1).
    { destruct (Z_lt_le_dec (Z.of_nat k) prepaid) as [Hk'|?]; [|lia].
      specialize (Hex Hk'). lia. }
    split; cbn [ledger trace bookkeepingPushedResultsCount tornDown].
    + rewrite Hsum. lia.
    + intros Hlt. lia.
    + lia.
    + rewrite decisions_app, Hdec. rewrite seq_S, List.map_app.
      f_equal. cbn [List.map]. unfold decisionAt.
      assert (Hnlt : (Z.of_nat (1 + k) <? prepaid) = false) by (apply Z.ltb_ge; lia).
      rewrite Hnlt. reflexivity.
    + exact Hrun.
Qed.

Lemma SeqInv_refresh k w :
  SeqInv prepaid k w ->
  SeqInv prepaid k (snd (run env (refreshCount prepaid) w)).
Proof.
  intros [Hsum Hex Hah Hdec Hrun].
  rewrite (refreshCount_ok env prepaid w (store_up _)). cbn [snd].
  split; cbn [ledger trace bookkeepingPushedResultsCount tornDown].
  - exact Hsum.
  - intros Hk. rewrite Hsum. specialize (Hex Hk). lia.
  - lia.
  - rewrite decisions_app, Hdec. cbn. apply app_nil_r.
  - exact Hrun.
Qed.

(** The [k]th result handled by the run is free exactly when [k] is below
    the allowance, whatever refreshes run, each as a whole, between two
    results. *)
Lemma crawlSequential_inv turns : forall k w,
  SeqInv prepaid k w ->
  SeqInv prepaid (k + itemsIn turns) (crawlSequential env prepaid turns w).
Proof.
  induction turns as [|t turns IH]; intros k w Hinv.
  - unfold itemsIn. cbn. rewrite Nat.add_0_r. exact Hinv.
  - destruct t as [request|]; cbn [crawlSequential].
    + rewrite (inv_running _ _ _ Hinv).
      unfold itemsIn. cbn [List.filter isItem length].
      rewrite Nat.add_succ_r. apply (IH (S k)). apply SeqInv_item. exact Hinv.
    + unfold itemsIn. cbn [List.filter isItem]. apply IH. apply SeqInv_refresh. exact Hinv.
Qed.

End Sequential.

(** The world left by the startup of a run that finds the bookkeeping
    dataset of the month without any items-pushed record and is the only
    writer satisfies the invariant for zero results. *)
Lemma SeqInv_startup env prepaid w cfg w' :
  sumBookkeepingPushedResultsCount (ledger w) = 0 ->
  decisions (trace w) = [] ->
  tornDown w = false ->
  run env startup w = (Returned cfg, w') ->
  SeqInv prepaid 0 w'.
Proof.
  intros Hsum Hdec Htd Hrun.
  unfold startup, readInput, rentalStartup, quotaStartup in Hrun.
  run_norm in Hrun.
  destruct (actorInput env) as [i|]; run_norm in Hrun; [|discriminate].
  destruct (storeOk env (storeCalls w)); run_norm in Hrun; [|discriminate].
  destruct (wasAlreadyRunThisMonth (ledger w)); run_norm in Hrun.
  - inversion Hrun; subst; clear Hrun.
    split; cbn [ledger trace bookkeepingPushedResultsCount tornDown].
    + rewrite Hsum. lia.
    + intros _. rewrite Hsum. reflexivity.
    + lia.
    + rewrite !decisions_app, Hdec. reflexivity.
    + exact Htd.
  - destruct (storeOk env (S (storeCalls w))); run_norm in Hrun; [|discriminate].
    inversion Hrun; subst; clear Hrun.
    split; cbn [ledger trace bookkeepingPushedResultsCount tornDown].
    + rewrite sum_app, Hsum, sum_cons_marker, sum_nil. lia.
    + intros _. rewrite Hsum. reflexivity.
    + rewrite sum_app, Hsum, sum_cons_marker, sum_nil. lia.
    + rewrite !decisions_app, Hdec. reflexivity.
    + exact Htd.
Qed.

(** ** The rental coordinator run on its own *)

Section RentalRuns.

Context (env : Env).

(** Startup when the listing shows a first-month-run record. *)
Lemma rentalStartup_already w :
  storeOk env (storeCalls w) = true ->
  wasAlreadyRunThisMonth (ledger w) = true ->
  run env rentalStartup w =
  (Returned tt,
   mkWorld (ledger w) (trace w ++ [EvListItems; EvLog InfoNotFirstRun])
           (ledger w) (bookkeepingPushedResultsCount w)
           (tornDown w) (S (storeCalls w)) (chargeCalls w)).
Proof.
  intros Hok Hwas. unfold rentalStartup. run_norm.
  rewrite Hok. run_norm. rewrite Hwas. run_norm.
  rewrite <- !app_assoc. reflexivity.
Qed.

(** Startup when the listing shows none and the append succeeds. *)
Lemma rentalStartup_claims w :
  storeOk env (storeCalls w) = true ->
  wasAlreadyRunThisMonth (ledger w) = false ->
  storeOk env (S (storeCalls w)) = true ->
  run env rentalStartup w =
  (Returned tt,
   mkWorld (ledger w ++ [ownMarker env w])
           (trace w ++ [EvListItems; EvPushItems [ownMarker env w];
                        EvSetTimeout RentalRecheck SAFE_RENTAL_RECHECK_WAIT_MS])
           (ledger w) (bookkeepingPushedResultsCount w)
           (tornDown w) (S (S (storeCalls w))) (chargeCalls w)).
Proof.
  intros Hok Hwas Hok2. unfold rentalStartup, ownMarker. run_norm.
  rewrite Hok. run_norm. rewrite Hwas. run_norm. rewrite Hok2. run_norm.
  rewrite !length_app; cbn [length].
  replace (length (trace w) + 1)%nat with (S (length (trace w))) by lia.
  rewrite <- !app_assoc. reflexivity.
Qed.

(** Startup when the listing shows none and the append fails. *)
Lemma rentalStartup_append_fault w :
  storeOk env (storeCalls w) = true ->
  wasAlreadyRunThisMonth (ledger w) = false ->
  storeOk env (S (storeCalls w)) = false ->
  run env rentalStartup w =
  (Threw StoreError,
   mkWorld (ledger w) (trace w ++ [EvListItems])
           (ledger w) (bookkeepingPushedResultsCount w)
           (tornDown w) (S (S (storeCalls w))) (chargeCalls w)).
Proof.
  intros Hok Hwas Hok2. unfold rentalStartup. run_norm.
  rewrite Hok. run_norm. rewrite Hwas. run_norm. rewrite Hok2. run_norm.
  reflexivity.
Qed.

(** The re-check when the listing succeeds. *)
Lemma rentalRecheck_ok w :
  storeOk env (storeCalls w) = true ->
  run env rentalRecheck w =
  (Returned tt,
   if isThisReallyFirstRun (ledger w) (actorRunId env) then
     mkWorld (ledger w)
             (trace w ++ [EvListItems; EvLog InfoChargedRental; EvCharge rental 1])
             (ledger w) (bookkeepingPushedResultsCount w)
             (tornDown w) (S (storeCalls w)) (S (chargeCalls w))
   else
     mkWorld (ledger w)
             (trace w ++ [EvListItems; EvLog InfoParallelRunWasFirst])
             (ledger w) (bookkeepingPushedResultsCount w)
             (tornDown w) (S (storeCalls w)) (chargeCalls w)).
Proof.
  intros Hok. unfold rentalRecheck. run_norm. rewrite Hok. run_norm.
  destruct (isThisReallyFirstRun (ledger w) (actorRunId env)); run_norm;
    rewrite <- !app_assoc; reflexivity.
Qed.

(** The re-check when the listing fails. *)
Lemma rentalRecheck_fault w :
  storeOk env (storeCalls w) = false ->
  run env rentalRecheck w = (Threw StoreError, tickStore w).
Proof.
  intros Hok. unfold rentalRecheck. run_norm. rewrite Hok. reflexivity.
Qed.

End RentalRuns.

Lemma isThisReallyFirstRun_true items r :
  isThisReallyFirstRun items r = true <->
  exists m, List.find isFirstMonthRun items = Some m /\ recordRunId m = r.
Proof.
  unfold isThisReallyFirstRun.
  destruct (List.find isFirstMonthRun items) as [m|].
  - rewrite String.eqb_eq. split.
    + intros H. exists m. split; [reflexivity|exact H].
    + intros [m' [Hm Hr]]. inversion Hm; subst. reflexivity.
  - split; [discriminate|]. intros [m [Hm _]]. discriminate.
Qed.

(** With the listing answering, the re-check charges exactly when
    [isThisReallyFirstRun] holds of the dataset: the guard of the re-check
    steps of [sysStep]. *)
Lemma rentalRecheck_charges_iff env w :
  storeOk env (storeCalls w) = true ->
  charges rental (trace (snd (run env rentalRecheck w)))
  = charges rental (trace w) ++
    (if isThisReallyFirstRun (ledger w) (actorRunId env) then [EvCharge rental 1] else []).
Proof.
  intros Hok. rewrite (rentalRecheck_ok env w Hok). cbn [snd].
  destruct (isThisReallyFirstRun (ledger w) (actorRunId env)); cbn [trace];
    rewrite charges_app; reflexivity.
Qed.

(** ** The free allowance *)

(** With the bookkeeping dataset answering and no charge limit, a run that
    starts on a dataset without items-pushed records decides its [k]th
    result by [decisionAt]: free exactly when [k] is below the allowance. *)
Lemma sequential_decisions env w cfg w' turns :
  (forall n, storeOk env n = true) ->
  (forall n, chargeLimitReached env n = false) ->
  sumBookkeepingPushedResultsCount (ledger w) = 0 ->
  decisions (trace w) = [] ->
  tornDown w = false ->
  run env startup w = (Returned cfg, w') ->
  decisions (trace (crawlSequential env (cfgPrepaidRentalResultsCount cfg) turns w'))
  = List.map (decisionAt (cfgPrepaidRentalResultsCount cfg)) (seq 1 (itemsIn turns)).
Proof.
  intros Hstore Hlimit Hsum Hdec Htd Hrun.
  pose proof (SeqInv_startup env (cfgPrepaidRentalResultsCount cfg) w cfg w'
                Hsum Hdec Htd Hrun) as H0.
  pose proof (crawlSequential_inv env (cfgPrepaidRentalResultsCount cfg)
                Hstore Hlimit turns 0%nat w' H0) as H.
  exact (inv_decisions _ _ _ H).
Qed.

(** C1. One run, an empty bookkeeping dataset, no other writer, the default
    allowance of 100 and 150 results handled one after the other: the
    source grants 99 free results and charges 51; the 100th result is
    already charged, where the claim makes it free. *)
Theorem C1_hundredth_result_is_charged :
  count_occ_decision Free (decisions (trace allowanceScenario)) = 99%nat /\
  count_occ_decision Paid (decisions (trace allowanceScenario)) = 51%nat /\
  length (charges result (trace allowanceScenario)) = 51%nat /\
  sumBookkeepingPushedResultsCount (ledger allowanceScenario) = 99 /\
  nth_error (decisions (trace allowanceScenario)) 98 = Some Free /\
  nth_error (decisions (trace allowanceScenario)) 99 = Some Paid.
Proof. vm_compute. repeat split; reflexivity. Qed.

(** ** The periodic refresh *)

(** The filter and reduce of the source compute the sum of [count] over
    the usage records. *)
Lemma sum_is_usageCountTotal l :
  sumBookkeepingPushedResultsCount l = usageCountTotal l.
Proof.
  induction l as [|x l IH]; [reflexivity|].
  destruct x as [r t|c r t]; cbn [usageCountTotal].
  - rewrite sum_cons_marker. exact IH.
  - rewrite sum_cons_pushed, IH. reflexivity.
Qed.

(** C7. A refresh lists the bookkeeping dataset and then overwrites the
    counter with the sum of [count] over the usage records of that
    listing ([usageCountTotal], which the filter and reduce of the source
    compute): run in one go the counter ends as the sum over the dataset at
    the listing, and whatever the counter became between the listing and
    the overwrite (world [w2]) is discarded. *)
Theorem C7_refresh_sets_counter_to_listing_sum
    env prepaid w (items : list BookkeepingRecord) w2 :
  storeOk env (storeCalls w) = true ->
  refreshCount prepaid = Vis ListItems (refreshAfterListing prepaid) /\
  fst (perform env ListItems w) = Returned (ledger w) /\
  sumBookkeepingPushedResultsCount items = usageCountTotal items /\
  bookkeepingPushedResultsCount (snd (run env (refreshAfterListing prepaid items) w2))
    = usageCountTotal items /\
  bookkeepingPushedResultsCount (snd (run env (refreshCount prepaid) w))
    = usageCountTotal (ledger w).
Proof.
  intros Hok. split; [reflexivity|]. split.
  - cbn [perform]. rewrite Hok. reflexivity.
  - split; [apply sum_is_usageCountTotal|]. split.
    + unfold refreshAfterListing. run_norm. apply sum_is_usageCountTotal.
    + rewrite (refreshCount_ok env prepaid w Hok). cbn [snd bookkeepingPushedResultsCount].
      apply sum_is_usageCountTotal.
Qed.

(** The refresh on a dataset with a period marker and three usage records
    of count 1, the counter standing at 7: the counter becomes 3. *)
Lemma C7_refresh_witness :
  storeOk (demoEnv None) (storeCalls refreshDemoWorld) = true /\
  bookkeepingPushedResultsCount
    (snd (run (demoEnv None) (refreshCount 100) refreshDemoWorld)) = 3.
Proof.
  split; [reflexivity|].
  exact (proj2 (proj2 (proj2 (proj2
    (C7_refresh_sets_counter_to_listing_sum (demoEnv None) 100 refreshDemoWorld []
       refreshDemoWorld eq_refl))))).
Defined.

(** ** The input *)

(** C9. An input object without [requestsCount] gets 50, one without
    [prepaidRentalResultsCount] gets 100, given values are kept; with no
    input object at all the script throws at the destructuring, before any
    other call. *)
Theorem C9_input_defaults rid ok lim clk w rc p :
  run (mkEnv rid (Some (mkInput None p)) ok lim clk) readInput w
    = (Returned (mkConfig 50 (default 100 p)), w) /\
  run (mkEnv rid (Some (mkInput rc None)) ok lim clk) readInput w
    = (Returned (mkConfig (default 50 rc) 100), w) /\
  run (mkEnv rid (Some (mkInput rc p)) ok lim clk) readInput w
    = (Returned (mkConfig (default 50 rc) (default 100 p)), w) /\
  run (mkEnv rid None ok lim clk) startup w = (Threw TypeError, w).
Proof. repeat split; reflexivity. Qed.

(** C6, counterexample. An allowance of -5 is not rejected: startup returns
    and goes on to list the bookkeeping dataset. *)
Lemma C6_negative_allowance_accepted :
  ~ rejectedAtStartup (demoEnv (Some (mkInput None (Some (-5))))) (initialWorld []).
Proof.
  intros [e [w' [Hrun _]]]. vm_compute in Hrun. discriminate Hrun.
Qed.

(** C6, as the source has it. No value of the input is checked: every
    input object is read with its values kept (an absent field taking its
    default), whatever their sign, and reading it touches nothing; with
    the bookkeeping dataset answering, startup then returns that
    configuration.  The two delays are constants of the script, 5000 and
    10000 milliseconds. *)
Theorem C6_no_validation env i w :
  actorInput env = Some i ->
  (forall n, storeOk env n = true) ->
  run env readInput w
    = (Returned (mkConfig (default 50 (requestsCount i))
                          (default 100 (prepaidRentalResultsCount i))), w) /\
  fst (run env startup w)
    = Returned (mkConfig (default 50 (requestsCount i))
                         (default 100 (prepaidRentalResultsCount i))) /\
  SAFE_RENTAL_RECHECK_WAIT_MS = 5000 /\ REFRESH_INTERVAL_MS = 10000.
Proof.
  intros Hin Hok. split; [|split; [|split; reflexivity]].
  - unfold readInput. run_norm. rewrite Hin. reflexivity.
  - unfold startup, readInput, rentalStartup, quotaStartup. run_norm.
    rewrite Hin. run_norm. rewrite Hok. run_norm.
    destruct (wasAlreadyRunThisMonth (ledger w)); run_norm.
    + reflexivity.
    + rewrite Hok. run_norm. reflexivity.
Qed.

(** Startup with three requests and an allowance of -5. *)
Lemma C6_no_validation_witness :
  fst (run (demoEnv (Some (mkInput (Some 3) (Some (-5))))) startup (initialWorld []))
  = Returned (mkConfig 3 (-5)).
Proof.
  exact (proj1 (proj2
    (C6_no_validation (demoEnv (Some (mkInput (Some 3) (Some (-5)))))
       (mkInput (Some 3) (Some (-5))) (initialWorld [])
       eq_refl (fun _ => eq_refl)))).
Defined.

(** ** Delivery of results *)

(** C10. Every handler invocation pushes its result to the output dataset
    exactly once, and does so before the counter is touched and before any
    effect of the decision: whatever follows (a free result and its
    bookkeeping record, a failed append of that record, a charge, a charge
    answering that the limit was reached) comes after the push and
    contains no other push. *)
Theorem C10_result_pushed_once_before_decision env prepaid request w :
  exists rest,
    trace (snd (run env (requestHandler prepaid request) w))
      = trace w ++ EvSleep 1000 :: EvPushData (loadedUrl request) :: rest /\
    List.filter isPushData rest = [] /\
    decisions (trace (snd (run env (requestHandler prepaid request) w)))
      = decisions (trace w) ++ decisions rest.
Proof.
  destruct (Z_lt_le_dec (bookkeepingPushedResultsCount w + 1) prepaid) as [Hlt|Hge].
  - destruct (storeOk env (storeCalls w)) eqn:Hok.
    + rewrite (requestHandler_free env prepaid request w Hlt Hok). cbn [snd trace].
      eexists. split; [reflexivity|]. split; [reflexivity|].
      rewrite decisions_app. reflexivity.
    + rewrite (requestHandler_free_fault env prepaid request w Hlt Hok). cbn [snd trace].
      eexists. split; [reflexivity|]. split; [reflexivity|].
      rewrite decisions_app. reflexivity.
  - rewrite (requestHandler_paid env prepaid request w Hge). cbn [snd].
    destruct (chargeLimitReached env (chargeCalls w)); cbn [trace];
      (eexists; split; [reflexivity|]; split; [reflexivity|];
       rewrite decisions_app; reflexivity).
Qed.

(** ** Failures of the bookkeeping dataset *)

(** C5, counterexample. The first listing succeeds and shows no
    first-month-run record, the append of the own record fails: the error
    leaves the startup code, nothing is logged. *)
Lemma C5_marker_append_failure_not_handled :
  ~ handledLocally (initialWorld []) (run (faultyEnv failAfterFirst) rentalStartup (initialWorld [])).
Proof.
  intros [Hret _]. vm_compute in Hret. discriminate Hret.
Qed.

(** C5, as the source has it. No failure of the bookkeeping dataset is
    caught.  A failed append of the first-month-run record throws out of
    the startup code before the re-check is scheduled; a failed listing in
    the re-check throws out of the timer callback; a failed append of an
    items-pushed record throws out of the request handler after the result
    was pushed and the counter incremented.  None of the three logs the
    failure, and none calls [Actor.charge]. *)
Theorem C5_store_failures_propagate env prepaid request w :
  (storeOk env (storeCalls w) = true ->
   wasAlreadyRunThisMonth (ledger w) = false ->
   storeOk env (S (storeCalls w)) = false ->
   fst (run env rentalStartup w) = Threw StoreError /\
   trace (snd (run env rentalStartup w)) = trace w ++ [EvListItems]) /\
  (storeOk env (storeCalls w) = false ->
   fst (run env rentalRecheck w) = Threw StoreError /\
   trace (snd (run env rentalRecheck w)) = trace w) /\
  (bookkeepingPushedResultsCount w + 1 < prepaid ->
   storeOk env (storeCalls w) = false ->
   fst (run env (requestHandler prepaid request) w) = Threw StoreError /\
   trace (snd (run env (requestHandler prepaid request) w))
     = trace w ++ [EvSleep 1000; EvPushData (loadedUrl request);
                   EvLog (InfoPushingFree (bookkeepingPushedResultsCount w + 1) prepaid)] /\
   bookkeepingPushedResultsCount (snd (run env (requestHandler prepaid request) w))
     = bookkeepingPushedResultsCount w + 1).
Proof.
  split; [|split].
  - intros Hok Hwas Hfail.
    rewrite (rentalStartup_append_fault env w Hok Hwas Hfail). split; reflexivity.
  - intros Hfail. rewrite (rentalRecheck_fault env w Hfail). split; reflexivity.
  - intros Hlt Hfail.
    rewrite (requestHandler_free_fault env prepaid request w Hlt Hfail).
    repeat split; reflexivity.
Qed.

(** The three failures on an empty dataset. *)
Lemma C5_store_failures_witness :
  fst (run (faultyEnv failAfterFirst) rentalStartup (initialWorld [])) = Threw StoreError /\
  fst (run (faultyEnv failAlways) rentalRecheck (initialWorld [])) = Threw StoreError /\
  fst (run (faultyEnv failAlways)
         (requestHandler 100 (mkRequest "https://example.com/page-1" None))
         (initialWorld [])) = Threw StoreError.
Proof.
  split; [|split].
  - exact (proj1 (proj1
      (C5_store_failures_propagate (faultyEnv failAfterFirst) 100
         (mkRequest "https://example.com/page-1" None) (initialWorld []))
      eq_refl eq_refl eq_refl)).
  - exact (proj1 (proj1 (proj2
      (C5_store_failures_propagate (faultyEnv failAlways) 100
         (mkRequest "https://example.com/page-1" None) (initialWorld [])))
      eq_refl)).
  - exact (proj1 (proj2 (proj2
      (C5_store_failures_propagate (faultyEnv failAlways) 100
         (mkRequest "https://example.com/page-1" None) (initialWorld [])))
      eq_refl eq_refl)).
Defined.

(** ** Who charges the rental *)

(** C2, counterexample. In the listing [lateArrival] the record with the
    lowest timestamp is the one of run-A, and run-B charges the rental. *)
Lemma C2_later_timestamp_listed_first_charges :
  ~ lowestTimestampDecides (envOf "run-B") (initialWorld lateArrival).
Proof.
  intros H.
  specialize (H (FirstMonthRunRecord "run-A" "2024-05-01T00:00:01.000Z") eq_refl).
  assert (Hne : recordRunId (FirstMonthRunRecord "run-A" "2024-05-01T00:00:01.000Z")
                <> actorRunId (envOf "run-B")) by (cbn; discriminate).
  specialize (H Hne). vm_compute in H. discriminate H.
Qed.

(** C2, as the source has it. The record that decides is the first
    first-month-run record in the order of the listing; timestamps are not
    compared.  A run whose id is not the one of that record does not call
    [Actor.charge] in its re-check. *)
Theorem C2_first_listed_marker_decides env w :
  (forall m, List.find isFirstMonthRun (ledger w) = Some m ->
             recordRunId m <> actorRunId env) ->
  charges rental (trace (snd (run env rentalRecheck w))) = charges rental (trace w).
Proof.
  intros Hother.
  destruct (storeOk env (storeCalls w)) eqn:Hok.
  - rewrite (rentalRecheck_ok env w Hok). cbn [snd].
    destruct (isThisReallyFirstRun (ledger w) (actorRunId env)) eqn:Hfirst.
    + apply isThisReallyFirstRun_true in Hfirst. destruct Hfirst as [m [Hm Hr]].
      exfalso. exact (Hother m Hm Hr).
    + cbn [trace]. rewrite charges_app. cbn. apply app_nil_r.
  - rewrite (rentalRecheck_fault env w Hok). reflexivity.
Qed.

(** In [lateArrival] run-A holds the lowest timestamp and does not charge. *)
Lemma C2_first_listed_witness :
  charges rental (trace (snd (run (envOf "run-A") rentalRecheck (initialWorld lateArrival)))) = [].
Proof.
  apply (C2_first_listed_marker_decides (envOf "run-A") (initialWorld lateArrival)).
  intros m Hm. vm_compute in Hm. inversion Hm; subst. cbn. discriminate.
Defined.

Lemma own_first_when_no_other env L m0 :
  In m0 L ->
  isFirstMonthRun m0 = true ->
  (forall m, In m L -> isFirstMonthRun m = true -> recordRunId m = actorRunId env) ->
  isThisReallyFirstRun L (actorRunId env) = true.
Proof.
  intros Hin Hm0 Hall. apply isThisReallyFirstRun_true.
  destruct (List.find isFirstMonthRun L) as [m|] eqn:Hfind.
  - exists m. split; [reflexivity|].
    apply List.find_some in Hfind. destruct Hfind as [Hm Hf]. exact (Hall m Hm Hf).
  - exfalso. pose proof (List.find_none _ _ Hfind m0 Hin) as Hnone.
    rewrite Hm0 in Hnone. discriminate.
Qed.

(** C4, counterexample. The first run of a month appends its record, and
    the listing of its re-check returns nothing, not even that record: no
    record of another run is shown, and the run does not charge. *)
Lemma C4_own_marker_not_listed_no_charge :
  ~ uncontestedRunCharges (envOf "run-A") (initialWorld []) [].
Proof.
  intros H.
  specialize (H eq_refl eq_refl eq_refl eq_refl).
  assert (Hnone : forall m, In m [] -> isFirstMonthRun m = true ->
                            recordRunId m = actorRunId (envOf "run-A"))
    by (intros m []).
  specialize (H Hnone). vm_compute in H. discriminate H.
Qed.

(** C4, as the source has it. A run whose first listing shows no
    first-month-run record appends its own and schedules one re-check
    after 5000 ms.  When that re-check runs and lists a dataset [L] that
    holds the run's record and no first-month-run record of another run,
    it calls [Actor.charge] once, for 'rental' with count 1; these are the
    only charge calls of startup and re-check. *)
Theorem C4_uncontested_run_charges_once env w L :
  storeOk env (storeCalls w) = true ->
  wasAlreadyRunThisMonth (ledger w) = false ->
  storeOk env (S (storeCalls w)) = true ->
  storeOk env (S (S (storeCalls w))) = true ->
  In (ownMarker env w) L ->
  (forall m, In m L -> isFirstMonthRun m = true -> recordRunId m = actorRunId env) ->
  let w1 := snd (run env rentalStartup w) in
  let w2 := snd (run env rentalRecheck (withLedger L w1)) in
  ledger w1 = ledger w ++ [ownMarker env w] /\
  trace w1 = trace w ++ [EvListItems; EvPushItems [ownMarker env w];
                         EvSetTimeout RentalRecheck 5000] /\
  trace w2 = trace w1 ++ [EvListItems; EvLog InfoChargedRental; EvCharge rental 1] /\
  charges rental (trace w2) = charges rental (trace w) ++ [EvCharge rental 1] /\
  charges result (trace w2) = charges result (trace w).
Proof.
  intros Hok Hwas Hok2 Hok3 Hown Hall w1 w2.
  assert (Hfirst : isThisReallyFirstRun L (actorRunId env) = true).
  { apply (own_first_when_no_other env L (ownMarker env w)); auto. }
  subst w2 w1.
  rewrite (rentalStartup_claims env w Hok Hwas Hok2). cbn [snd].
  rewrite rentalRecheck_ok by exact Hok3.
  unfold withLedger; cbn [snd ledger trace bookkeepingItems bookkeepingPushedResultsCount
                          tornDown storeCalls chargeCalls].
  rewrite Hfirst. cbn [trace].
  split; [reflexivity|]. split; [reflexivity|]. split; [reflexivity|].
  rewrite !charges_app. cbn. rewrite !app_nil_r. split; reflexivity.
Qed.

(** The first run of a month, another run appending a result meanwhile. *)
Lemma C4_uncontested_witness :
  charges rental
    (trace (snd (run (envOf "run-A") rentalRecheck
       (withLedger [FirstMonthRunRecord "run-A" "2024-05-01T00:00:00.000Z";
                    ItemsPushedRecord 1 "run-B" "2024-05-01T00:00:02.000Z"]
          (snd (run (envOf "run-A") rentalStartup (initialWorld []))))))) =
  [EvCharge rental 1].
Proof.
  refine (proj1 (proj2 (proj2 (proj2
    (C4_uncontested_run_charges_once (envOf "run-A") (initialWorld [])
       [FirstMonthRunRecord "run-A" "2024-05-01T00:00:00.000Z";
        ItemsPushedRecord 1 "run-B" "2024-05-01T00:00:02.000Z"]
       eq_refl eq_refl eq_refl eq_refl _ _))))).
  - left. reflexivity.
  - intros m [Hm|[Hm|[]]] Hf; subst m; [reflexivity|discriminate Hf].
Defined.

(** ** The charge limit *)

Lemma perform_keeps_tornDown env (R : Type) (c : Call R) w :
  tornDown w = true -> tornDown (snd (perform env c w)) = true.
Proof.
  intros Htd.
  destruct c; cbn [perform]; try destruct (storeOk env (storeCalls w));
    cbn [snd]; world_fields; try exact Htd; reflexivity.
Qed.

Lemma poolStep_after_teardown env prepaid p l p' :
  poolStep env prepaid p l p' ->
  tornDown (poolWorld p) = true ->
  isStart l = false /\ poolQueue p' = poolQueue p /\ tornDown (poolWorld p') = true.
Proof.
  intros Hstep Htd. destruct Hstep as
    [w request q fl loaded Hrun Hlen
    |w q fl i R c k a w' Hi Hperf
    |w q fl i R c k e w' Hi Hperf
    |w q fl i Hi
    |w q fl i e Hi]; cbn [poolWorld poolQueue isStart] in *.
  - rewrite Hrun in Htd. discriminate.
  - repeat split. pose proof (perform_keeps_tornDown env R c w Htd) as H.
    rewrite Hperf in H. exact H.
  - repeat split. pose proof (perform_keeps_tornDown env R c w Htd) as H.
    rewrite Hperf in H. exact H.
  - repeat split. exact Htd.
  - repeat split. exact Htd.
Qed.

Lemma poolRun_after_teardown env prepaid p ls p' :
  poolRun env prepaid p ls p' ->
  tornDown (poolWorld p) = true ->
  List.Forall (fun l => isStart l = false) ls /\
  poolQueue p' = poolQueue p /\ tornDown (poolWorld p') = true.
Proof.
  induction 1 as [p|p l p' ls p'' Hstep Hrun IH]; intros Htd.
  - repeat split; [constructor|exact Htd].
  - destruct (poolStep_after_teardown env prepaid p l p' Hstep Htd) as [Hl [Hq Htd']].
    destruct (IH Htd') as [Hls [Hq' Htd'']].
    repeat split; [constructor; assumption|congruence|exact Htd''].
Qed.

(** ** At most one rental charge *)

Lemma find_marker_snoc_Some l x m :
  List.find isFirstMonthRun l = Some m ->
  List.find isFirstMonthRun (l ++ [x]) = Some m.
Proof. intros H. rewrite find_marker_app, H. reflexivity. Qed.

(** A re-check that is shown the dataset up to the run's own record finds
    the same first first-month-run record as the dataset holds. *)
Lemma settled_recheck_same_first r store view :
  settled (RecheckListing r) store view ->
  List.find isFirstMonthRun view = List.find isFirstMonthRun store.
Proof.
  intros [before [ts [later [shown [-> ->]]]]].
  rewrite !find_marker_app. destruct (List.find isFirstMonthRun before); reflexivity.
Qed.

Lemma SysInv_step s s' :
  sysStep settled s s' -> SysInv s -> SysInv s'.
Proof.
  intros Hstep [Hch Hnd].
  destruct Hstep as
    [l runs cs r Hr
    |l runs cs r view Hr Hv
    |l runs cs r ts Hr
    |l runs cs r view Hr Hv Hfirst
    |l runs cs r view Hr Hv Hfirst
    |l runs cs r ph ts Hr];
    cbn [sysLedger sysRuns sysCharges] in *.
  - split; [|exact Hnd]. intros r' Hin. cbn [sysLedger sysRuns sysCharges].
    destruct (Hch r' Hin) as [Hph Hm]. split; [|exact Hm].
    rewrite lookup_insert_ne; [exact Hph|]. intros ->. rewrite Hr in Hph. discriminate.
  - split; [|exact Hnd]. intros r' Hin. cbn [sysLedger sysRuns sysCharges].
    destruct (Hch r' Hin) as [Hph Hm]. split; [|exact Hm].
    rewrite lookup_insert_ne; [exact Hph|]. intros ->. rewrite Hr in Hph. discriminate.
  - split; [|exact Hnd]. intros r' Hin. cbn [sysLedger sysRuns sysCharges].
    destruct (Hch r' Hin) as [Hph [m [Hm Hid]]]. split.
    + rewrite lookup_insert_ne; [exact Hph|]. intros ->. rewrite Hr in Hph. discriminate.
    + exists m. split; [apply find_marker_snoc_Some; exact Hm|exact Hid].
  - apply isThisReallyFirstRun_true in Hfirst.
    rewrite (settled_recheck_same_first r l view Hv) in Hfirst.
    assert (Hfresh : r ∉ cs).
    { intros Hin. destruct (Hch r Hin) as [Hph _]. rewrite Hr in Hph. discriminate. }
    split; cbn [sysLedger sysRuns sysCharges].
    + intros r' Hin. apply elem_of_app in Hin. destruct Hin as [Hin|Hin].
      * destruct (Hch r' Hin) as [Hph Hm]. split; [|exact Hm].
        rewrite lookup_insert_ne; [exact Hph|]. intros ->. contradiction.
      * apply list_elem_of_singleton in Hin. subst r'.
        split; [apply lookup_insert_eq|exact Hfirst].
    + apply NoDup_app. split; [exact Hnd|]. split.
      * intros x Hx Hx'. apply list_elem_of_singleton in Hx'. subst x. contradiction.
      * apply NoDup_singleton.
  - split; [|exact Hnd]. intros r' Hin. cbn [sysLedger sysRuns sysCharges].
    destruct (Hch r' Hin) as [Hph Hm]. split; [|exact Hm].
    rewrite lookup_insert_ne; [exact Hph|]. intros ->. rewrite Hr in Hph. discriminate.
  - split; [|exact Hnd]. intros r' Hin. cbn [sysLedger sysRuns sysCharges].
    destruct (Hch r' Hin) as [Hph [m [Hm Hid]]]. split; [exact Hph|].
    exists m. split; [apply find_marker_snoc_Some; exact Hm|exact Hid].
Qed.

Lemma SysInv_reach s : sysReach settled s -> SysInv s.
Proof.
  induction 1 as [|s s' _ IH Hstep].
  - split; cbn [sysCharges].
    + intros r Hin. apply elem_of_nil in Hin. contradiction.
    + apply NoDup_nil. exact I.
  - exact (SysInv_step s s' Hstep IH).
Qed.

Lemma SysInv_at_most_one s : SysInv s -> (length (sysCharges s) <= 1)%nat.
Proof.
  intros [Hch Hnd].
  destruct (sysCharges s) as [|r1 [|r2 cs]] eqn:Hcs; cbn [length]; try lia.
  exfalso.
  assert (H1 : r1 ∈ r1 :: r2 :: cs) by (apply elem_of_cons; left; reflexivity).
  assert (H2 : r2 ∈ r1 :: r2 :: cs).
  { apply elem_of_cons; right. apply elem_of_cons; left; reflexivity. }
  destruct (Hch r1 H1) as [_ [m1 [Hm1 Hid1]]].
  destruct (Hch r2 H2) as [_ [m2 [Hm2 Hid2]]].
  rewrite Hm1 in Hm2. inversion Hm2; subst m2.
  apply NoDup_cons in Hnd. destruct Hnd as [Hnotin _].
  apply Hnotin. apply elem_of_cons. left. congruence.
Qed.

Lemma raceRuns_A a b : raceRuns a b !! "run-A" = Some a.
Proof. unfold raceRuns. rewrite lookup_insert_ne by discriminate. apply lookup_insert_eq. Qed.

Lemma raceRuns_B a b : raceRuns a b !! "run-B" = Some b.
Proof. unfold raceRuns. apply lookup_insert_eq. Qed.

Lemma raceRuns_set_A a a' b : <["run-A" := a']> (raceRuns a b) = raceRuns a' b.
Proof.
  unfold raceRuns. rewrite insert_insert_ne by discriminate.
  rewrite insert_insert_eq. reflexivity.
Qed.

Lemma raceRuns_set_B a b b' : <["run-B" := b']> (raceRuns a b) = raceRuns a b'.
Proof. unfold raceRuns. apply insert_insert_eq. Qed.

Lemma race_reaches_both_pending V :
  (forall r, V (FirstListing r) [] []) ->
  sysReach V (mkSystem [markerA; markerB] (raceRuns Pending Pending) []).
Proof.
  intros Hempty.
  assert (R2 : sysReach V (mkSystem [] (raceRuns Unchecked Unchecked) [])).
  { eapply reach_step; [eapply reach_step; [apply reach_init|]|].
    - apply (sys_start V [] ∅ [] "run-A"). apply lookup_empty.
    - apply (sys_start V [] (<["run-A" := Unchecked]> ∅) [] "run-B").
      rewrite lookup_insert_ne by discriminate. apply lookup_empty. }
  assert (R3 : sysReach V (mkSystem [] (raceRuns Claiming Unchecked) [])).
  { eapply reach_step; [exact R2|].
    rewrite <- (raceRuns_set_A Unchecked Claiming Unchecked).
    apply (sys_first_listing V [] _ [] "run-A" []); [apply raceRuns_A|apply Hempty]. }
  assert (R4 : sysReach V (mkSystem [] (raceRuns Claiming Claiming) [])).
  { eapply reach_step; [exact R3|].
    rewrite <- (raceRuns_set_B Claiming Unchecked Claiming).
    apply (sys_first_listing V [] _ [] "run-B" []); [apply raceRuns_B|apply Hempty]. }
  assert (R5 : sysReach V (mkSystem [markerA] (raceRuns Pending Claiming) [])).
  { eapply reach_step; [exact R4|].
    rewrite <- (raceRuns_set_A Claiming Pending Claiming).
    apply (sys_append_marker V [] _ [] "run-A"). apply raceRuns_A. }
  eapply reach_step; [exact R5|].
  rewrite <- (raceRuns_set_B Pending Claiming Pending).
  apply (sys_append_marker V [markerA] _ [] "run-B"). apply raceRuns_B.
Qed.

(** C3, counterexample. When a listing may miss records appended by other
    runs, both runs of the race charge the rental. *)
Lemma C3_two_charges_under_delayed_visibility :
  ~ atMostOneRentalCharge delayed.
Proof.
  intros Hclaim.
  assert (Hempty : forall r, delayed (FirstListing r) [] [])
    by (intros r; unfold delayed; apply sublist_nil_l).
  pose proof (race_reaches_both_pending delayed Hempty) as R6.
  assert (R7 : sysReach delayed
                 (mkSystem [markerA; markerB] (raceRuns Charged Pending) ["run-A"])).
  { eapply reach_step; [exact R6|].
    rewrite <- (raceRuns_set_A Pending Charged Pending).
    apply (sys_recheck_charge delayed _ _ [] "run-A" [markerA; markerB]);
      [apply raceRuns_A|unfold delayed; reflexivity|reflexivity]. }
  assert (R8 : sysReach delayed
                 (mkSystem [markerA; markerB] (raceRuns Charged Charged) ["run-A"; "run-B"])).
  { eapply reach_step; [exact R7|].
    rewrite <- (raceRuns_set_B Charged Pending Charged).
    apply (sys_recheck_charge delayed _ _ ["run-A"] "run-B" [markerB]);
      [apply raceRuns_B| |reflexivity].
    unfold delayed. apply sublist_cons. reflexivity. }
  specialize (Hclaim _ R8). cbn in Hclaim. lia.
Qed.

(** C3, as the source has it. When the listing of every re-check shows, in
    append order, the records appended up to and including the record of
    the run itself, then however many runs start, however stale their
    first listings are, and however their listings, appends and re-checks
    interleave, at most one run calls [Actor.charge] for 'rental'. *)
Theorem C3_at_most_one_rental_charge s :
  sysReach settled s -> (length (sysCharges s) <= 1)%nat.
Proof.
  intros Hreach. apply SysInv_at_most_one. apply SysInv_reach. exact Hreach.
Qed.

(** Run-A registers; run-B starts later but its first listing is stale and
    shows nothing, so it registers too.  Both re-checks are shown the
    dataset up to their own record: run-A charges, run-B skips. *)
Lemma C3_at_most_one_witness :
  (length (sysCharges
     (mkSystem [markerA; markerB] (raceRuns Charged Skipped) ["run-A"])) <= 1)%nat.
Proof.
  apply C3_at_most_one_rental_charge.
  assert (R1 : sysReach settled (mkSystem [] (<["run-A" := Unchecked]> ∅) [])).
  { eapply reach_step; [apply reach_init|].
    apply (sys_start settled [] ∅ [] "run-A"). apply lookup_empty. }
  assert (R2 : sysReach settled (mkSystem [markerA] (<["run-A" := Pending]> ∅) [])).
  { assert (R1' : sysReach settled
                    (mkSystem [] (<["run-A" := Claiming]> (<["run-A" := Unchecked]> ∅)) [])).
    { eapply reach_step; [exact R1|].
      apply (sys_first_listing settled [] _ [] "run-A" []);
        [apply lookup_insert_eq|exact I]. }
    assert (R1'' : sysReach settled
                     (mkSystem [markerA]
                        (<["run-A" := Pending]>
                           (<["run-A" := Claiming]> (<["run-A" := Unchecked]> ∅))) [])).
    { eapply reach_step; [exact R1'|].
      apply (sys_append_marker settled [] _ [] "run-A"). apply lookup_insert_eq. }
    rewrite !insert_insert_eq in R1''. exact R1''. }
  assert (R3 : sysReach settled (mkSystem [markerA] (raceRuns Pending Unchecked) [])).
  { eapply reach_step; [exact R2|].
    apply (sys_start settled [markerA] _ [] "run-B").
    rewrite lookup_insert_ne by discriminate. apply lookup_empty. }
  assert (R4 : sysReach settled (mkSystem [markerA] (raceRuns Pending Claiming) [])).
  { eapply reach_step; [exact R3|].
    rewrite <- (raceRuns_set_B Pending Unchecked Claiming).
    apply (sys_first_listing settled [markerA] _ [] "run-B" []);
      [apply raceRuns_B|exact I]. }
  assert (R5 : sysReach settled
                 (mkSystem [markerA; markerB] (raceRuns Pending Pending) [])).
  { eapply reach_step; [exact R4|].
    rewrite <- (raceRuns_set_B Pending Claiming Pending).
    apply (sys_append_marker settled [markerA] _ [] "run-B"). apply raceRuns_B. }
  assert (R6 : sysReach settled
                 (mkSystem [markerA; markerB] (raceRuns Charged Pending) ["run-A"])).
  { eapply reach_step; [exact R5|].
    rewrite <- (raceRuns_set_A Pending Charged Pending).
    apply (sys_recheck_charge settled _ _ [] "run-A" [markerA; markerB]);
      [apply raceRuns_A| |reflexivity].
    exists [], "2024-05-01T00:00:00.000Z", [markerB], [markerB]. split; reflexivity. }
  eapply reach_step; [exact R6|].
  rewrite <- (raceRuns_set_B Charged Pending Skipped).
  apply (sys_recheck_skip settled _ _ ["run-A"] "run-B" [markerA; markerB]);
    [apply raceRuns_B| |reflexivity].
  exists [markerA], "2024-05-01T00:00:00.100Z", [], []. split; reflexivity.
Defined.

(** ** A crawl that hits the charge limit *)

(** With no allowance and a charge limit already reached, the first
    handler charges, tears the crawler down and ends; the second request
    stays in the queue and the crawl cannot move any more. *)
Example capped_crawl_stops :
  exists w,
    poolRun cappedEnv 0
      (mkPool (initialWorld []) [firstRequest; waitingRequest] [])
      [LStart firstRequest; LCall 0%nat; LCall 0%nat; LCall 0%nat; LCall 0%nat;
       LCall 0%nat; LCall 0%nat; LCall 0%nat; LEnd 0%nat]
      (mkPool w [waitingRequest] []) /\
    tornDown w = true /\
    decisions (trace w) = [Paid] /\
    forall l p', ~ poolStep cappedEnv 0 (mkPool w [waitingRequest] []) l p'.
Proof.
  eexists. split.
  - eapply poolRun_cons.
    { apply (step_start _ _ _ firstRequest [waitingRequest] [] None);
        [reflexivity|unfold maxConcurrency; cbn [length]; lia]. }
    cbn [app].
    do 7 pool_call.
    eapply poolRun_cons; [apply step_returned; reflexivity|].
    apply poolRun_nil.
  - split; [reflexivity|]. split; [reflexivity|].
    intros l p' Hstep. inversion Hstep; subst; try discriminate.
Qed.

Lemma nth_error_map_seq {A : Type} (f : nat -> A) n k :
  (1 <= k <= n)%nat ->
  nth_error (List.map f (seq 1 n)) (k - 1) = Some (f k).
Proof.
  intros Hk. rewrite List.nth_error_map.
  rewrite List.nth_error_nth' with (d := 0%nat) by (rewrite List.length_seq; lia).
  rewrite List.seq_nth by lia. cbn [option_map]. f_equal. f_equal. lia.
Qed.

(** The [k]th result of a run that is the only writer is free if and only
    if [k] is below the allowance, as long as no refresh overlaps a
    handler: with an allowance of [T] the run grants [T - 1] free results,
    one less than the claim of C1. *)
Lemma kth_result_free_iff env w cfg w' turns k :
  (forall n, storeOk env n = true) ->
  (forall n, chargeLimitReached env n = false) ->
  sumBookkeepingPushedResultsCount (ledger w) = 0 ->
  decisions (trace w) = [] ->
  tornDown w = false ->
  run env startup w = (Returned cfg, w') ->
  (1 <= k <= itemsIn turns)%nat ->
  nth_error
    (decisions (trace (crawlSequential env (cfgPrepaidRentalResultsCount cfg) turns w')))
    (k - 1) = Some Free
  <-> Z.of_nat k < cfgPrepaidRentalResultsCount cfg.
Proof.
  intros Hstore Hlimit Hsum Hdec Htd Hrun Hk.
  rewrite (sequential_decisions env w cfg w' turns Hstore Hlimit Hsum Hdec Htd Hrun).
  rewrite nth_error_map_seq by exact Hk.
  unfold decisionAt.
  destruct (Z.ltb_spec (Z.of_nat k) (cfgPrepaidRentalResultsCount cfg)) as [Hlt|Hge].
  - split; [intros _; exact Hlt|reflexivity].
  - split; [discriminate|lia].
Qed.

(** ** The sum of the free results recorded *)

Lemma sum_cons x l :
  sumBookkeepingPushedResultsCount (x :: l)
  = sumBookkeepingPushedResultsCount [x] + sumBookkeepingPushedResultsCount l.
Proof. exact (sum_app [x] l). Qed.

(** X1. The sum does not depend on the order in which the listing returns
    the records. *)
Theorem X1_sum_order_independent l l' :
  Permutation l l' ->
  sumBookkeepingPushedResultsCount l = sumBookkeepingPushedResultsCount l'.
Proof.
  induction 1 as [|x l l' _ IH|x y l|l l' l'' _ IH1 _ IH2].
  - reflexivity.
  - rewrite (sum_cons x l), (sum_cons x l'), IH. reflexivity.
  - rewrite (sum_cons y (x :: l)), (sum_cons x l), (sum_cons x (y :: l)), (sum_cons y l). lia.
  - congruence.
Qed.

(** A listing and the same records in another order. *)
Lemma X1_sum_order_witness :
  sumBookkeepingPushedResultsCount
    [ItemsPushedRecord 1 "run-A" "t1"; FirstMonthRunRecord "run-A" "t0";
     ItemsPushedRecord 2 "run-B" "t2"]
  = sumBookkeepingPushedResultsCount
    [FirstMonthRunRecord "run-A" "t0"; ItemsPushedRecord 1 "run-A" "t1";
     ItemsPushedRecord 2 "run-B" "t2"].
Proof.
  apply X1_sum_order_independent. apply perm_swap.
Defined.

(** X2. When every items-pushed record carries the count 1, as those this
    script writes do, the sum is the number of items-pushed records of the
    listing. *)
Theorem X2_sum_counts_free_results l :
  (forall c r t, In (ItemsPushedRecord c r t) l -> c = 1) ->
  sumBookkeepingPushedResultsCount l = Z.of_nat (length (List.filter isItemsPushed l)).
Proof.
  induction l as [|x l IH]; intros Hone.
  - reflexivity.
  - assert (Hl : forall c r t, In (ItemsPushedRecord c r t) l -> c = 1).
    { intros c r t Hin. apply (Hone c r t). right. exact Hin. }
    destruct x as [r t|c r t].
    + rewrite sum_cons_marker. cbn [List.filter isItemsPushed]. exact (IH Hl).
    + rewrite sum_cons_pushed. cbn [List.filter isItemsPushed length].
      rewrite (IH Hl). rewrite (Hone c r t (or_introl eq_refl)). lia.
Qed.

(** A listing with a first-month-run record and two free results. *)
Lemma X2_sum_counts_witness :
  sumBookkeepingPushedResultsCount
    [FirstMonthRunRecord "run-A" "t0"; ItemsPushedRecord 1 "run-A" "t1";
     ItemsPushedRecord 1 "run-B" "t2"] = 2.
Proof.
  apply (X2_sum_counts_free_results
    [FirstMonthRunRecord "run-A" "t0"; ItemsPushedRecord 1 "run-A" "t1";
     ItemsPushedRecord 1 "run-B" "t2"]).
  intros c r t [H|[H|[H|[]]]]; inversion H; reflexivity.
Defined.

(** X3. The sum of a listing followed by further records is the sum of
    both parts, first-month-run records add nothing, and the empty listing
    sums to zero. *)
Theorem X3_sum_of_appended_listing l ext r t :
  sumBookkeepingPushedResultsCount (l ++ ext)
    = sumBookkeepingPushedResultsCount l + sumBookkeepingPushedResultsCount ext /\
  sumBookkeepingPushedResultsCount (l ++ [FirstMonthRunRecord r t])
    = sumBookkeepingPushedResultsCount l /\
  sumBookkeepingPushedResultsCount (List.filter isFirstMonthRun l) = 0 /\
  sumBookkeepingPushedResultsCount [] = 0.
Proof.
  split; [apply sum_app|]. split.
  - rewrite sum_app, sum_cons_marker, sum_nil. lia.
  - split; [|reflexivity].
    induction l as [|x l IH]; [reflexivity|].
    destruct x; cbn [List.filter isFirstMonthRun]; [rewrite sum_cons_marker|]; exact IH.
Qed.

(** ** The first-month-run record that decides *)

(** X4. A listing names at most one run as the first of the month: two run
    ids for which [isThisReallyFirstRun] holds of the same listing are
    equal; the run it names has a record in the listing; and a listing
    without any first-month-run record names nobody. *)
Theorem X4_one_first_run_per_listing items a b :
  isThisReallyFirstRun items a = true ->
  isThisReallyFirstRun items b = true ->
  a = b /\
  wasAlreadyRunThisMonth items = true /\
  (exists t, In (FirstMonthRunRecord a t) items) /\
  (forall l id, wasAlreadyRunThisMonth l = false -> isThisReallyFirstRun l id = false).
Proof.
  intros Ha Hb.
  apply isThisReallyFirstRun_true in Ha. destruct Ha as [m [Hm Hida]].
  apply isThisReallyFirstRun_true in Hb. destruct Hb as [m' [Hm' Hidb]].
  rewrite Hm in Hm'. inversion Hm'; subst m'.
  pose proof (List.find_some _ _ Hm) as [Hin Hf].
  split; [congruence|]. split; [|split].
  - unfold wasAlreadyRunThisMonth. apply existsb_exists. exists m. split; assumption.
  - destruct m as [r t|c r t]; [|discriminate Hf].
    exists t. cbn in Hida. subst r. exact Hin.
  - intros l id Hno. unfold isThisReallyFirstRun.
    destruct (List.find isFirstMonthRun l) as [x|] eqn:Hx; [|reflexivity].
    apply List.find_some in Hx. destruct Hx as [Hxin Hxf].
    unfold wasAlreadyRunThisMonth in Hno.
    assert (Hex : existsb isFirstMonthRun l = true)
      by (apply existsb_exists; exists x; split; assumption).
    rewrite Hex in Hno. discriminate.
Qed.

(** In [lateArrival] only run-B is named. *)
Lemma X4_one_first_run_witness :
  "run-B" = "run-B" /\ wasAlreadyRunThisMonth lateArrival = true.
Proof.
  destruct (X4_one_first_run_per_listing lateArrival "run-B" "run-B" eq_refl eq_refl)
    as [H1 [H2 _]].
  split; [exact H1|exact H2].
Defined.

(** X5. Once a listing holds a first-month-run record, records appended
    later change neither that a run was already registered nor which run
    is named as the first. *)
Theorem X5_first_run_stable_under_append l ext id :
  wasAlreadyRunThisMonth l = true ->
  wasAlreadyRunThisMonth (l ++ ext) = true /\
  isThisReallyFirstRun (l ++ ext) id = isThisReallyFirstRun l id.
Proof.
  intros Hwas. split.
  - unfold wasAlreadyRunThisMonth in *. rewrite existsb_app, Hwas. reflexivity.
  - unfold isThisReallyFirstRun. rewrite find_marker_app.
    destruct (List.find isFirstMonthRun l) as [m|] eqn:Hm; [reflexivity|].
    exfalso. unfold wasAlreadyRunThisMonth in Hwas.
    apply existsb_exists in Hwas. destruct Hwas as [x [Hin Hf]].
    pose proof (List.find_none _ _ Hm x Hin) as Hnone. congruence.
Qed.

(** The record of run-A appended after the one of run-B does not make
    run-A the first. *)
Lemma X5_first_run_stable_witness :
  isThisReallyFirstRun ([markerB] ++ [markerA]) "run-A" = isThisReallyFirstRun [markerB] "run-A".
Proof.
  exact (proj2 (X5_first_run_stable_under_append [markerB] [markerA] "run-A" eq_refl)).
Defined.

(** ** What the parts of the script do and never do *)

(** X6. Startup never calls [Actor.charge], for any input, any dataset and
    any failure of the dataset: the rental is only ever charged by the
    re-check. *)
Theorem X6_startup_never_charges env w eventName :
  charges eventName (trace (snd (run env startup w))) = charges eventName (trace w).
Proof.
  unfold startup, readInput, rentalStartup, quotaStartup. run_norm.
  destruct (actorInput env) as [i|]; run_norm; [|reflexivity].
  destruct (storeOk env (storeCalls w)); run_norm; [|reflexivity].
  destruct (wasAlreadyRunThisMonth (ledger w)); run_norm.
  - rewrite !charges_app. destruct eventName; cbn; rewrite !app_nil_r; reflexivity.
  - destruct (storeOk env (S (storeCalls w))); run_norm.
    + rewrite !charges_app. destruct eventName; cbn; rewrite !app_nil_r; reflexivity.
    + rewrite !charges_app. destruct eventName; cbn; rewrite !app_nil_r; reflexivity.
Qed.

(** X7. Startup with an input object and the dataset answering.  The
    counter is seeded with the sum over the first listing, so the run's
    own first-month-run record never counts; the refresh interval is
    always registered.  When the listing already holds a first-month-run
    record the dataset is left as it is and no re-check is scheduled;
    otherwise the run's record is appended and one re-check is scheduled. *)
Theorem X7_startup_outcome env i w :
  actorInput env = Some i ->
  storeOk env (storeCalls w) = true ->
  storeOk env (S (storeCalls w)) = true ->
  let w' := snd (run env startup w) in
  bookkeepingPushedResultsCount w' = sumBookkeepingPushedResultsCount (ledger w) /\
  bookkeepingItems w' = ledger w /\
  (if wasAlreadyRunThisMonth (ledger w) then
     ledger w' = ledger w /\
     trace w' = trace w ++ [EvListItems; EvLog InfoNotFirstRun;
                            EvSetInterval RefreshCount 10000]
   else
     ledger w' = ledger w ++ [ownMarker env w] /\
     trace w' = trace w ++ [EvListItems; EvPushItems [ownMarker env w];
                            EvSetTimeout RentalRecheck 5000;
                            EvSetInterval RefreshCount 10000]).
Proof.
  intros Hin Hok Hok2 w'. subst w'.
  unfold startup, readInput, rentalStartup, quotaStartup, ownMarker. run_norm.
  rewrite Hin. run_norm. rewrite Hok. run_norm.
  destruct (wasAlreadyRunThisMonth (ledger w)); run_norm.
  - repeat split; rewrite <- ?app_assoc; reflexivity.
  - rewrite Hok2. run_norm.
    rewrite !length_app; cbn [length].
    replace (length (trace w) + 1)%nat with (S (length (trace w))) by lia.
    repeat split; rewrite <- ?app_assoc; reflexivity.
Qed.

(** Startup of run-A on a dataset where run-B is registered with one free
    result: the counter starts at 1. *)
Lemma X7_startup_outcome_witness :
  bookkeepingPushedResultsCount
    (snd (run (demoEnv (Some (mkInput None None))) startup
            (initialWorld [markerB; ItemsPushedRecord 1 "run-B" "2024-05-01T00:00:02.000Z"])))
  = 1.
Proof.
  exact (proj1
    (X7_startup_outcome (demoEnv (Some (mkInput None None))) (mkInput None None)
       (initialWorld [markerB; ItemsPushedRecord 1 "run-B" "2024-05-01T00:00:02.000Z"])
       eq_refl eq_refl eq_refl)).
Defined.

(** X8. One handler invocation, whatever the allowance, the counter and
    the answers of the platform: the counter goes up by exactly one (for a
    charged result and for a failed append as well); the dataset is left as
    it is or gets the one items-pushed record of this result; at most one
    decision is taken; a result is never both recorded as free and
    charged; and 'rental' is never charged. *)
Theorem X8_handler_effects env prepaid request w :
  let w' := snd (run env (requestHandler prepaid request) w) in
  bookkeepingPushedResultsCount w' = bookkeepingPushedResultsCount w + 1 /\
  (ledger w' = ledger w \/ ledger w' = ledger w ++ [usageRecord env w]) /\
  (length (decisions (trace w')) <= S (length (decisions (trace w))))%nat /\
  (ledger w' = ledger w \/ charges result (trace w') = charges result (trace w)) /\
  charges rental (trace w') = charges rental (trace w) /\
  bookkeepingItems w' = bookkeepingItems w.
Proof.
  intros w'. subst w'.
  destruct (Z_lt_le_dec (bookkeepingPushedResultsCount w + 1) prepaid) as [Hlt|Hge].
  - destruct (storeOk env (storeCalls w)) eqn:Hok.
    + rewrite (requestHandler_free env prepaid request w Hlt Hok).
      cbn [snd ledger trace bookkeepingPushedResultsCount bookkeepingItems].
      rewrite decisions_app, !charges_app, length_app. cbn.
      rewrite !app_nil_r. repeat split; try lia; auto.
    + rewrite (requestHandler_free_fault env prepaid request w Hlt Hok).
      cbn [snd ledger trace bookkeepingPushedResultsCount bookkeepingItems].
      rewrite decisions_app, !charges_app, length_app. cbn.
      rewrite !app_nil_r. repeat split; try lia; auto.
  - rewrite (requestHandler_paid env prepaid request w Hge). cbn [snd].
    destruct (chargeLimitReached env (chargeCalls w));
      cbn [ledger trace bookkeepingPushedResultsCount bookkeepingItems];
      rewrite decisions_app, !charges_app, length_app; cbn;
      rewrite !app_nil_r; repeat split; try lia; auto.
Qed.

(** X9. The periodic refresh never appends to the dataset, never charges
    and takes no decision; when its listing fails the counter keeps the
    value it had. *)
Theorem X9_refresh_effects env prepaid w eventName :
  let w' := snd (run env (refreshCount prepaid) w) in
  ledger w' = ledger w /\
  charges eventName (trace w') = charges eventName (trace w) /\
  decisions (trace w') = decisions (trace w) /\
  bookkeepingPushedResultsCount w'
    = (if storeOk env (storeCalls w)
       then sumBookkeepingPushedResultsCount (ledger w)
       else bookkeepingPushedResultsCount w).
Proof.
  intros w'. subst w'.
  destruct (storeOk env (storeCalls w)) eqn:Hok.
  - rewrite (refreshCount_ok env prepaid w Hok).
    cbn [snd ledger trace bookkeepingPushedResultsCount].
    rewrite decisions_app, charges_app.
    destruct eventName; cbn; rewrite !app_nil_r; repeat split; reflexivity.
  - rewrite (refreshCount_fault env prepaid w Hok). repeat split; reflexivity.
Qed.

(** X10. The rental re-check never appends to the dataset, never touches
    the counter, never charges 'result', and calls [Actor.charge] for
    'rental' at most once, with count 1; on a dataset without any
    first-month-run record it does not charge. *)
Theorem X10_recheck_effects env w :
  let w' := snd (run env rentalRecheck w) in
  ledger w' = ledger w /\
  bookkeepingPushedResultsCount w' = bookkeepingPushedResultsCount w /\
  charges result (trace w') = charges result (trace w) /\
  (charges rental (trace w') = charges rental (trace w) \/
   charges rental (trace w') = charges rental (trace w) ++ [EvCharge rental 1]) /\
  (wasAlreadyRunThisMonth (ledger w) = false ->
   charges rental (trace w') = charges rental (trace w)).
Proof.
  intros w'. subst w'.
  destruct (storeOk env (storeCalls w)) eqn:Hok.
  - rewrite (rentalRecheck_ok env w Hok). cbn [snd].
    destruct (isThisReallyFirstRun (ledger w) (actorRunId env)) eqn:Hfirst;
      cbn [ledger trace bookkeepingPushedResultsCount];
      rewrite !charges_app; cbn; rewrite ?app_nil_r.
    + repeat split; auto. intros Hno.
      apply isThisReallyFirstRun_true in Hfirst. destruct Hfirst as [m [Hm _]].
      apply List.find_some in Hm. destruct Hm as [Hin Hf].
      unfold wasAlreadyRunThisMonth in Hno.
      assert (Hex : existsb isFirstMonthRun (ledger w) = true)
        by (apply existsb_exists; exists m; split; assumption).
      rewrite Hex in Hno. discriminate.
    + repeat split; auto.
  - rewrite (rentalRecheck_fault env w Hok). repeat split; auto.
Qed.

(** The re-check of run-A on an empty dataset. *)
Lemma X10_recheck_witness :
  charges rental (trace (snd (run (envOf "run-A") rentalRecheck (initialWorld [])))) = [].
Proof.
  destruct (X10_recheck_effects (envOf "run-A") (initialWorld [])) as [_ [_ [_ [_ H]]]].
  exact (H eq_refl).
Defined.

(** ** The start requests *)

Lemma append_inj_l (p a b : string) : (p +:+ a = p +:+ b)%string -> a = b.
Proof.
  induction p as [|c p IH]; cbn [String.append]; intros H; [exact H|].
  injection H as H. exact (IH H).
Qed.

Lemma decimal_of_positive_inj (x y : Z) :
  0 < x -> 0 < y ->
  NilZero.string_of_int (Z.to_int x) = NilZero.string_of_int (Z.to_int y) -> x = y.
Proof.
  intros Hx Hy H.
  assert (Hnn : forall z, 0 < z -> Z.to_int z <> Decimal.Pos Decimal.Nil /\
                                   Z.to_int z <> Decimal.Neg Decimal.Nil).
  { intros z Hz. destruct z as [|p|p]; try lia. cbn [Z.to_int]. split.
    - intros [= Hp]. exact (Unsigned.to_uint_nonnil p Hp).
    - discriminate. }
  destruct (Hnn x Hx) as [Hx1 Hx2]. destruct (Hnn y Hy) as [Hy1 Hy2].
  pose proof (NilZero.isi _ Hx1 Hx2) as Ex.
  pose proof (NilZero.isi _ Hy1 Hy2) as Ey.
  rewrite H in Ex. rewrite Ex in Ey. injection Ey as Ey.
  rewrite <- (DecimalZ.of_to x), <- (DecimalZ.of_to y), Ey. reflexivity.
Qed.

Lemma pageUrl_inj i j : pageUrl i = pageUrl j -> i = j.
Proof.
  unfold pageUrl. intros H. apply append_inj_l in H.
  apply decimal_of_positive_inj in H; lia.
Qed.

(** X11. The start requests: there are [requestsCount] of them, none when
    [requestsCount] is zero or negative; the request at index [i] is for
    page [i + 1]; and no two requests have the same URL. *)
Theorem X11_start_requests n :
  length (startRequests n) = Z.to_nat n /\
  (n <= 0 -> startRequests n = []) /\
  (forall i, (i < Z.to_nat n)%nat ->
     nth_error (startRequests n) i = Some (mkRequest (pageUrl i) None)) /\
  List.NoDup (List.map url (startRequests n)).
Proof.
  unfold startRequests. split; [|split; [|split]].
  - rewrite List.length_map, List.length_seq. reflexivity.
  - intros Hn. replace (Z.to_nat n) with 0%nat by lia. reflexivity.
  - intros i Hi. rewrite List.nth_error_map.
    rewrite List.nth_error_nth' with (d := 0%nat) by (rewrite List.length_seq; exact Hi).
    rewrite List.seq_nth by exact Hi. reflexivity.
  - rewrite List.map_map. cbn [url].
    apply List.NoDup_map_NoDup_ForallPairs; [|apply List.seq_NoDup].
    intros x y _ _ Hxy. exact (pageUrl_inj x y Hxy).
Qed.

(** The default of 50 requests, and a negative count. *)
Lemma X11_start_requests_witness :
  startRequests (-3) = [] /\
  nth_error (startRequests 50) 49
    = Some (mkRequest "https://example.com/page-50" None).
Proof.
  split.
  - apply (proj1 (proj2 (X11_start_requests (-3)))). lia.
  - apply (proj1 (proj2 (proj2 (X11_start_requests 50))) 49%nat). cbn. lia.
Defined.

(** ** How many results a run grants for free *)






(** ** Racing runs, whatever a listing shows *)

Lemma sys_charged_runs V s :
  sysReach V s ->
  NoDup (sysCharges s) /\
  forall r, r ∈ sysCharges s -> sysRuns s !! r = Some Charged.
Proof.
  induction 1 as [|s s' _ [Hnd Hch] Hstep].
  - split; [apply NoDup_nil; exact I|].
    intros r Hin. apply elem_of_nil in Hin. contradiction.
  - destruct Hstep as
      [l runs cs r Hr
      |l runs cs r view Hr Hv
      |l runs cs r ts Hr
      |l runs cs r view Hr Hv Hfirst
      |l runs cs r view Hr Hv Hfirst
      |l runs cs r ph ts Hr];
      cbn [sysLedger sysRuns sysCharges] in *;
      try (split; [exact Hnd|]; intros r' Hin; specialize (Hch r' Hin);
           try exact Hch;
           rewrite lookup_insert_ne; [exact Hch|];
           intros ->; rewrite Hr in Hch; discriminate).
    + assert (Hfresh : r ∉ cs).
      { intros Hin. specialize (Hch r Hin). rewrite Hr in Hch. discriminate. }
      split.
      * apply NoDup_app. split; [exact Hnd|]. split; [|apply NoDup_singleton].
        intros x Hx Hx'. apply list_elem_of_singleton in Hx'. subst x. contradiction.
      * intros r' Hin. apply elem_of_app in Hin. destruct Hin as [Hin|Hin].
        -- rewrite lookup_insert_ne; [exact (Hch r' Hin)|]. intros ->. contradiction.
        -- apply list_elem_of_singleton in Hin. subst r'. apply lookup_insert_eq.
    + split; [exact Hnd|exact Hch].
Qed.

(** X13. Whatever the listings show, even listings unrelated to the
    dataset, no run charges the rental twice, and a run that charged is at
    its end: a run still before its re-check, or one that skipped, has not
    charged. *)
Theorem X13_no_run_charges_twice V s r :
  sysReach V s ->
  NoDup (sysCharges s) /\
  (r ∈ sysCharges s -> sysRuns s !! r = Some Charged) /\
  (sysRuns s !! r <> Some Charged -> r ∉ sysCharges s).
Proof.
  intros Hreach. destruct (sys_charged_runs V s Hreach) as [Hnd Hch].
  split; [exact Hnd|]. split; [exact (Hch r)|].
  intros Hne Hin. exact (Hne (Hch r Hin)).
Qed.

Lemma race_both_charged :
  sysReach delayed
    (mkSystem [markerA; markerB] (raceRuns Charged Charged) ["run-A"; "run-B"]).
Proof.
  assert (Hempty : forall r, delayed (FirstListing r) [] [])
    by (intros r; unfold delayed; apply sublist_nil_l).
  pose proof (race_reaches_both_pending delayed Hempty) as R6.
  assert (R7 : sysReach delayed
                 (mkSystem [markerA; markerB] (raceRuns Charged Pending) ["run-A"])).
  { eapply reach_step; [exact R6|].
    rewrite <- (raceRuns_set_A Pending Charged Pending).
    apply (sys_recheck_charge delayed _ _ [] "run-A" [markerA; markerB]);
      [apply raceRuns_A|unfold delayed; reflexivity|reflexivity]. }
  eapply reach_step; [exact R7|].
  rewrite <- (raceRuns_set_B Charged Pending Charged).
  apply (sys_recheck_charge delayed _ _ ["run-A"] "run-B" [markerB]);
    [apply raceRuns_B| |reflexivity].
  unfold delayed. apply sublist_cons. reflexivity.
Qed.

(** In the race where both runs charge, each charged once. *)
Lemma X13_no_run_charges_twice_witness :
  NoDup ["run-A"; "run-B"].
Proof.
  exact (proj1 (X13_no_run_charges_twice delayed _ "run-A" race_both_charged)).
Defined.

Lemma sys_charged_has_marker s :
  sysReach delayed s ->
  forall r, r ∈ sysCharges s ->
    exists m, In m (sysLedger s) /\ isFirstMonthRun m = true /\ recordRunId m = r.
Proof.
  induction 1 as [|s s' _ IH Hstep].
  - intros r Hin. apply elem_of_nil in Hin. contradiction.
  - destruct Hstep as
      [l runs cs r Hr
      |l runs cs r view Hr Hv
      |l runs cs r ts Hr
      |l runs cs r view Hr Hv Hfirst
      |l runs cs r view Hr Hv Hfirst
      |l runs cs r ph ts Hr];
      cbn [sysLedger sysRuns sysCharges] in *;
      try exact IH;
      try (intros r' Hin; destruct (IH r' Hin) as [m [Hm Hrest]];
           exists m; split; [apply in_or_app; left; exact Hm|exact Hrest]).
    intros r' Hin. apply elem_of_app in Hin. destruct Hin as [Hin|Hin].
    + exact (IH r' Hin).
    + apply list_elem_of_singleton in Hin. subst r'.
      apply isThisReallyFirstRun_true in Hfirst. destruct Hfirst as [m [Hm Hid]].
      apply List.find_some in Hm. destruct Hm as [Hin Hf].
      exists m. split; [|split; assumption].
      apply list_elem_of_In. apply (elem_of_sublist view l m); [|exact Hv].
      apply list_elem_of_In. exact Hin.
Qed.

(** X14. When a listing may miss records (but shows only records of the
    dataset), every run that charged the rental has its own
    first-month-run record in the dataset, and the number of rental
    charges is at most the number of first-month-run records appended. *)
Theorem X14_charges_bounded_by_markers s :
  sysReach delayed s ->
  (forall r, r ∈ sysCharges s -> exists t, In (FirstMonthRunRecord r t) (sysLedger s)) /\
  (length (sysCharges s) <= length (List.filter isFirstMonthRun (sysLedger s)))%nat.
Proof.
  intros Hreach.
  pose proof (sys_charged_has_marker s Hreach) as Hm.
  split.
  - intros r Hin. destruct (Hm r Hin) as [m [Hl [Hf Hid]]].
    destruct m as [r' t|c r' t]; [|discriminate Hf].
    cbn in Hid. subst r'. exists t. exact Hl.
  - destruct (sys_charged_runs delayed s Hreach) as [Hnd _].
    rewrite <- (List.length_map recordRunId (List.filter isFirstMonthRun (sysLedger s))).
    apply submseteq_length. apply NoDup_submseteq; [exact Hnd|].
    intros r Hin. destruct (Hm r Hin) as [m [Hl [Hf Hid]]].
    apply list_elem_of_In. rewrite <- Hid. apply List.in_map.
    apply List.filter_In. split; assumption.
Qed.

(** In the race where both runs charge, two records were appended. *)
Lemma X14_charges_bounded_witness :
  (length ["run-A"; "run-B"] <= length (List.filter isFirstMonthRun [markerA; markerB]))%nat.
Proof.
  exact (proj2 (X14_charges_bounded_by_markers _ race_both_charged)).
Defined.

(** ** Free results granted by handlers in flight *)

Lemma freeGranted_emit e w :
  freeGranted (emit e w)
  = freeGranted w + match decisionOf e with Some Free => 1 | _ => 0 end.
Proof.
  unfold freeGranted, emit. cbn [trace]. rewrite decisions_app.
  unfold count_occ_decision. rewrite List.filter_app, length_app.
  unfold decisions. cbn [omap list_omap].
  destruct (decisionOf e) as [[|]|]; cbn [List.filter length app]; lia.
Qed.

Ltac stage_arith :=
  rewrite ?freeGranted_emit;
  unfold allowanceLeft, freeGranted, emit, withLedger, withItems, withCount,
         withTornDown, tickStore, tickCharge;
  cbn [trace bookkeepingPushedResultsCount decisionOf pendingFree fst snd];
  lia.

Lemma stepTask_stage env prepaid t tag w :
  Stage prepaid t tag ->
  match fst (stepTask env t w) with
  | Some t' =>
      exists tag', Stage prepaid t' tag' /\
        freeGranted (snd (stepTask env t w)) + pendingFree tag'
          - allowanceLeft prepaid (snd (stepTask env t w))
        <= freeGranted w + pendingFree tag - allowanceLeft prepaid w
  | None =>
      freeGranted (snd (stepTask env t w))
        - allowanceLeft prepaid (snd (stepTask env t w))
      <= freeGranted w + pendingFree tag - allowanceLeft prepaid w
  end.
Proof.
  intros Hst. destruct Hst.
  - cbn [stepTask perform fst snd]. exists BeforeIncrement.
    split; [apply stage_push_data|stage_arith].
  - cbn [stepTask perform fst snd]. exists BeforeIncrement.
    split; [apply stage_increment|stage_arith].
  - cbn [stepTask perform fst snd].
    destruct (Z_lt_le_dec (bookkeepingPushedResultsCount w + 1) prepaid) as [Hlt|Hge].
    + exists FreePending. split; [apply stage_free; exact Hlt|stage_arith].
    + exists Settled. split; [apply stage_paid; exact Hge|stage_arith].
  - unfold afterIncrement. apply Z.ltb_lt in H. rewrite H.
    cbn [stepTask perform fst snd bind call]. exists FreePending.
    split; [apply stage_free_run_id|stage_arith].
  - cbn [stepTask perform fst snd]. exists FreePending.
    split; [apply stage_free_now|stage_arith].
  - cbn [stepTask perform fst snd]. exists FreePending.
    split; [apply stage_free_append|stage_arith].
  - cbn [stepTask perform fst snd pushBookkeepingData call].
    destruct (storeOk env (storeCalls w)); cbn [fst snd].
    + exists Settled. split; [apply stage_end|stage_arith].
    + stage_arith.
  - unfold afterIncrement. apply Z.ltb_ge in H. rewrite H.
    cbn [stepTask perform fst snd bind call]. exists Settled.
    split; [apply stage_charge|stage_arith].
  - cbn [stepTask perform fst snd]. exists Settled.
    split; [apply stage_after_charge|stage_arith].
  - destruct b; unfold afterCharge; cbn [stepTask perform fst snd bind call].
    + exists Settled. split; [apply stage_teardown|stage_arith].
    + stage_arith.
  - cbn [stepTask perform fst snd call]. exists Settled.
    split; [apply stage_end|stage_arith].
  - cbn [stepTask fst snd]. stage_arith.
Qed.

Lemma pendingFreeSum_app t1 t2 :
  pendingFreeSum (t1 ++ t2) = pendingFreeSum t1 + pendingFreeSum t2.
Proof.
  induction t1 as [|s t1 IH]; cbn [app pendingFreeSum]; lia.
Qed.

Lemma pendingFreeSum_insert tags : forall i tag tag',
  tags !! i = Some tag ->
  pendingFreeSum (<[i := tag']> tags)
  = pendingFreeSum tags - pendingFree tag + pendingFree tag'.
Proof.
  induction tags as [|s tags IH]; intros [|i] tag tag' Hi; try discriminate.
  - injection Hi as ->.
    change (<[0%nat := tag']> (tag :: tags)) with (tag' :: tags).
    cbn [pendingFreeSum]. lia.
  - change ((s :: tags) !! S i) with (tags !! i) in Hi.
    change (<[S i := tag']> (s :: tags)) with (s :: <[i := tag']> tags).
    cbn [pendingFreeSum]. rewrite (IH i tag tag' Hi). lia.
Qed.

Lemma pendingFreeSum_delete tags : forall i tag,
  tags !! i = Some tag ->
  pendingFreeSum (delete i tags) = pendingFreeSum tags - pendingFree tag.
Proof.
  induction tags as [|s tags IH]; intros [|i] tag Hi; try discriminate.
  - injection Hi as ->.
    change (delete 0%nat (tag :: tags)) with tags.
    cbn [pendingFreeSum]. lia.
  - change ((s :: tags) !! S i) with (tags !! i) in Hi.
    change (delete (S i) (s :: tags)) with (s :: delete i tags).
    cbn [pendingFreeSum]. rewrite (IH i tag Hi). lia.
Qed.

Lemma poolStep_task env prepaid p l p' :
  poolStep env prepaid p l p' ->
  (exists u, poolWorld p' = poolWorld p /\
     poolInFlight p' = poolInFlight p ++ [requestHandler prepaid (mkRequest u.1 u.2)]) \/
  (exists i t,
     poolInFlight p !! i = Some t /\
     poolWorld p' = snd (stepTask env t (poolWorld p)) /\
     poolInFlight p' =
       match fst (stepTask env t (poolWorld p)) with
       | Some t' => <[i := t']> (poolInFlight p)
       | None => delete i (poolInFlight p)
       end).
Proof.
  intros Hstep. destruct Hstep as
    [w request q fl loaded Hrun Hlen
    |w q fl i R c k a w' Hi Hperf
    |w q fl i R c k e w' Hi Hperf
    |w q fl i Hi
    |w q fl i e Hi]; cbn [poolWorld poolInFlight].
  - left. exists (url request, loaded). split; reflexivity.
  - right. exists i, (Vis c k). cbn [stepTask]. rewrite Hperf. repeat split. exact Hi.
  - right. exists i, (Vis c k). cbn [stepTask]. rewrite Hperf. repeat split. exact Hi.
  - right. exists i, (Ret tt). repeat split. exact Hi.
  - right. exists i, (Throw e). repeat split. exact Hi.
Qed.

Lemma PoolInv_step env prepaid bound p l p' :
  poolStep env prepaid p l p' -> PoolInv prepaid bound p -> PoolInv prepaid bound p'.
Proof.
  intros Hstep [tags [Hall Hle]].
  destruct (poolStep_task env prepaid p l p' Hstep) as
    [[u [Hw Hfl]]|[i [t [Hi [Hw Hfl]]]]].
  - exists (tags ++ [BeforeIncrement]). rewrite Hw, Hfl. split.
    + apply Forall2_app; [exact Hall|]. repeat constructor.
    + rewrite pendingFreeSum_app. cbn [pendingFreeSum pendingFree]. lia.
  - destruct (Forall2_lookup_l _ _ _ _ _ Hall Hi) as [tag [Htag Hst]].
    pose proof (stepTask_stage env prepaid t tag (poolWorld p) Hst) as Hstep'.
    rewrite <- Hw in Hstep'.
    destruct (fst (stepTask env t (poolWorld p))) as [t'|].
    + destruct Hstep' as [tag' [Hst' Hle']].
      exists (<[i := tag']> tags). rewrite Hfl. split.
      * apply Forall2_insert; assumption.
      * rewrite (pendingFreeSum_insert tags i tag tag' Htag). lia.
    + exists (delete i tags). rewrite Hfl. split.
      * apply Forall2_delete. exact Hall.
      * rewrite (pendingFreeSum_delete tags i tag Htag). lia.
Qed.

Lemma pendingFreeSum_nonneg tags : 0 <= pendingFreeSum tags.
Proof.
  induction tags as [|s tags IH]; cbn [pendingFreeSum]; [lia|].
  destruct s; cbn [pendingFree]; lia.
Qed.

(** X15. Handlers of one run interleaved at their calls in any way, with
    no refresh firing: the free results they grant never exceed what is
    left of the allowance when the crawl starts, [T - 1 - c] for the
    allowance [T] and the counter [c], and none is granted when that is
    negative.  The increment and the comparison are one step, so no two
    handlers in flight take the same place under the allowance. *)
Theorem X15_free_results_bounded_in_a_crawl env prepaid w0 q ls p :
  poolRun env prepaid (mkPool w0 q []) ls p ->
  freeGranted (poolWorld p) - freeGranted w0
  <= Z.max 0 (prepaid - 1 - bookkeepingPushedResultsCount w0).
Proof.
  intros Hrun.
  assert (Hinv : PoolInv prepaid (freeGranted w0 - allowanceLeft prepaid w0) p).
  { remember (mkPool w0 q []) as p0 eqn:Hp0.
    assert (H0 : PoolInv prepaid (freeGranted w0 - allowanceLeft prepaid w0) p0).
    { subst p0. exists []. split; [constructor|].
      cbn [poolWorld pendingFreeSum]. lia. }
    clear Hp0. induction Hrun as [p|p l p' ls p'' Hstep _ IH]; [exact H0|].
    apply IH. exact (PoolInv_step env prepaid _ p l p' Hstep H0). }
  destruct Hinv as [tags [_ Hle]].
  pose proof (pendingFreeSum_nonneg tags). unfold allowanceLeft in *. lia.
Qed.

(** One handler granted a free result under an allowance of 2. *)
Lemma X15_free_results_bounded_witness :
  exists w,
    poolRun (demoEnv None) 2
      (mkPool (initialWorld []) [firstRequest] [])
      [LStart firstRequest; LCall 0%nat; LCall 0%nat; LCall 0%nat; LCall 0%nat;
       LCall 0%nat; LCall 0%nat; LCall 0%nat]
      (mkPool w [] [Ret tt]) /\
    freeGranted w = 1 /\
    freeGranted w - freeGranted (initialWorld [])
      <= Z.max 0 (2 - 1 - bookkeepingPushedResultsCount (initialWorld [])).
Proof.
  eexists. split; [|split].
  - eapply poolRun_cons.
    { apply (step_start _ _ _ firstRequest [] [] None);
        [reflexivity|unfold maxConcurrency; cbn [length]; lia]. }
    cbn [app].
    do 7 pool_call.
    apply poolRun_nil.
  - reflexivity.
  - match goal with
    | |- freeGranted ?w - _ <= _ =>
        apply (X15_free_results_bounded_in_a_crawl (demoEnv None) 2 (initialWorld [])
                 [firstRequest]
                 [LStart firstRequest; LCall 0%nat; LCall 0%nat; LCall 0%nat; LCall 0%nat;
                  LCall 0%nat; LCall 0%nat; LCall 0%nat]
                 (mkPool w [] [Ret tt]))
    end.
    eapply poolRun_cons.
    { apply (step_start _ _ _ firstRequest [] [] None);
        [reflexivity|unfold maxConcurrency; cbn [length]; lia]. }
    cbn [app].
    do 7 pool_call.
    apply poolRun_nil.
Defined.

(** ** The charge limit: teardown and the end of the process *)

Lemma decisionsTaken_emit e w :
  decisionsTaken (emit e w)
  = decisionsTaken w + match decisionOf e with Some _ => 1 | None => 0 end.
Proof.
  unfold decisionsTaken, emit. cbn [trace]. rewrite decisions_app, length_app.
  unfold decisions. cbn [omap list_omap].
  destruct (decisionOf e); cbn [length]; lia.
Qed.

Ltac point_arith :=
  rewrite ?decisionsTaken_emit;
  unfold decisionsTaken, emit, withLedger, withItems, withCount,
         withTornDown, tickStore, tickCharge;
  cbn [trace chargeCalls tornDown decisionOf decisionsLeft tearsDown fst snd];
  repeat split; try lia; try reflexivity; try tauto; try discriminate; auto.

Lemma stepTask_point env prepaid t pt w :
  AtPoint prepaid t pt ->
  (tornDown (snd (stepTask env t w)) = true -> tornDown w = true \/ tearsDown pt = 1) /\
  match fst (stepTask env t w) with
  | Some t' =>
      exists pt', AtPoint prepaid t' pt' /\
        decisionsTaken (snd (stepTask env t w)) + decisionsLeft pt'
          <= decisionsTaken w + decisionsLeft pt /\
        (tearsDown pt = 1 -> tearsDown pt' = 1 \/ tornDown (snd (stepTask env t w)) = true) /\
        (chargeCalls (snd (stepTask env t w)) = chargeCalls w /\
           (tearsDown pt' = 1 -> tearsDown pt = 1)
         \/
         chargeCalls (snd (stepTask env t w)) = S (chargeCalls w) /\
           (tearsDown pt' = 1 <-> chargeLimitReached env (chargeCalls w) = true))
  | None =>
      tearsDown pt = 0 /\
      decisionsTaken (snd (stepTask env t w)) <= decisionsTaken w + decisionsLeft pt /\
      chargeCalls (snd (stepTask env t w)) = chargeCalls w
  end.
Proof.
  intros Hat. destruct Hat.
  - cbn [stepTask perform fst snd]. split; [point_arith|].
    exists Undecided. split; [apply at_push_data|point_arith].
  - cbn [stepTask perform fst snd]. split; [point_arith|].
    exists Undecided. split; [apply at_increment|point_arith].
  - cbn [stepTask perform fst snd]. split; [point_arith|].
    exists Undecided. split; [apply at_incremented|point_arith].
  - unfold afterIncrement. destruct (n <? prepaid)%Z;
      cbn [stepTask perform fst snd bind call]; (split; [point_arith|]).
    + exists Undecided. split; [apply at_free_run_id|point_arith].
    + exists Undecided. split; [apply at_charge|point_arith].
  - cbn [stepTask perform fst snd]. split; [point_arith|].
    exists Undecided. split; [apply at_free_now|point_arith].
  - cbn [stepTask perform fst snd]. split; [point_arith|].
    exists Undecided. split; [apply at_free_append|point_arith].
  - cbn [stepTask perform fst snd pushBookkeepingData call].
    destruct (storeOk env (storeCalls w)); cbn [fst snd]; (split; [point_arith|]).
    + exists Ended. split; [apply at_end|point_arith].
    + point_arith.
  - cbn [stepTask perform fst snd]. split; [point_arith|].
    exists (Answered (chargeLimitReached env (chargeCalls w))).
    split; [apply at_answered|].
    destruct (chargeLimitReached env (chargeCalls w)); point_arith.
    all: right; point_arith.
  - destruct b; unfold afterCharge; cbn [stepTask perform fst snd bind call];
      (split; [point_arith|]).
    + exists TearingDown. split; [apply at_teardown|point_arith].
    + point_arith.
  - cbn [stepTask perform fst snd call]. split; [point_arith|].
    exists Ended. split; [apply at_end|point_arith].
  - cbn [stepTask fst snd]. point_arith.
Qed.

Lemma weightSum_app f p1 p2 : weightSum f (p1 ++ p2) = weightSum f p1 + weightSum f p2.
Proof. induction p1 as [|pt p1 IH]; cbn [app weightSum]; lia. Qed.

Lemma weightSum_insert f pts : forall i pt pt',
  pts !! i = Some pt ->
  weightSum f (<[i := pt']> pts) = weightSum f pts - f pt + f pt'.
Proof.
  induction pts as [|s pts IH]; intros [|i] pt pt' Hi; try discriminate.
  - injection Hi as ->.
    change (<[0%nat := pt']> (pt :: pts)) with (pt' :: pts).
    cbn [weightSum]. lia.
  - change ((s :: pts) !! S i) with (pts !! i) in Hi.
    change (<[S i := pt']> (s :: pts)) with (s :: <[i := pt']> pts).
    cbn [weightSum]. rewrite (IH i pt pt' Hi). lia.
Qed.

Lemma weightSum_delete f pts : forall i pt,
  pts !! i = Some pt ->
  weightSum f (delete i pts) = weightSum f pts - f pt.
Proof.
  induction pts as [|s pts IH]; intros [|i] pt Hi; try discriminate.
  - injection Hi as ->.
    change (delete 0%nat (pt :: pts)) with pts.
    cbn [weightSum]. lia.
  - change ((s :: pts) !! S i) with (pts !! i) in Hi.
    change (delete (S i) (s :: pts)) with (s :: delete i pts).
    cbn [weightSum]. rewrite (IH i pt Hi). lia.
Qed.

Lemma tearsDown_range pt : 0 <= tearsDown pt <= 1.
Proof. destruct pt as [|[|]| |]; cbn [tearsDown]; lia. Qed.

Lemma decisionsLeft_range pt : 0 <= decisionsLeft pt <= 1.
Proof. destruct pt; cbn [decisionsLeft]; lia. Qed.

Lemma weightSum_tearsDown_nonneg pts : 0 <= weightSum tearsDown pts.
Proof.
  induction pts as [|pt pts IH]; cbn [weightSum]; [lia|].
  pose proof (tearsDown_range pt). lia.
Qed.

Lemma weightSum_tearsDown_lookup pts : forall i pt,
  pts !! i = Some pt -> tearsDown pt <= weightSum tearsDown pts.
Proof.
  induction pts as [|s pts IH]; intros [|i] pt Hi; try discriminate.
  - injection Hi as ->. cbn [weightSum].
    pose proof (weightSum_tearsDown_nonneg pts). lia.
  - change ((s :: pts) !! S i) with (pts !! i) in Hi. cbn [weightSum].
    pose proof (IH i pt Hi). pose proof (tearsDown_range s). lia.
Qed.

Lemma weightSum_tearsDown_pos pts :
  0 < weightSum tearsDown pts -> exists i pt, pts !! i = Some pt /\ tearsDown pt = 1.
Proof.
  induction pts as [|s pts IH]; cbn [weightSum]; [lia|]. intros Hpos.
  pose proof (tearsDown_range s).
  destruct (Z.eq_dec (tearsDown s) 1) as [Hs|Hs].
  - exists 0%nat, s. split; [reflexivity|exact Hs].
  - destruct IH as [i [pt [Hi Hpt]]]; [lia|].
    exists (S i), pt. split; [exact Hi|exact Hpt].
Qed.

Lemma weightSum_decisionsLeft_length pts :
  0 <= weightSum decisionsLeft pts <= Z.of_nat (length pts).
Proof.
  induction pts as [|pt pts IH]; cbn [weightSum length]; [lia|].
  pose proof (decisionsLeft_range pt). lia.
Qed.

Lemma limitAnswered_mono env c0 w w' :
  (chargeCalls w <= chargeCalls w')%nat ->
  limitAnswered env c0 w -> limitAnswered env c0 w'.
Proof. intros Hle [n [Hn Hl]]. exists n. split; [lia|exact Hl]. Qed.

Lemma CrawlInv_step env prepaid c0 p l p' :
  poolStep env prepaid p l p' -> CrawlInv env prepaid c0 p -> CrawlInv env prepaid c0 p'.
Proof.
  intros Hstep [pts [Hall [Hc0 Hiff]]].
  destruct (poolStep_task env prepaid p l p' Hstep) as
    [[u [Hw Hfl]]|[i [t [Hi [Hw Hfl]]]]].
  - exists (pts ++ [Undecided]). rewrite Hw, Hfl. split; [|split].
    + apply Forall2_app; [exact Hall|]. repeat constructor.
    + exact Hc0.
    + rewrite weightSum_app. cbn [weightSum tearsDown].
      rewrite Z.add_0_r. exact Hiff.
  - destruct (Forall2_lookup_l _ _ _ _ _ Hall Hi) as [pt [Hpt Hat]].
    pose proof (stepTask_point env prepaid t pt (poolWorld p) Hat) as [Htd Hres].
    pose proof (perform_keeps_tornDown) as Hkeep.
    assert (Hkeep' : tornDown (poolWorld p) = true -> tornDown (poolWorld p') = true).
    { intros Ht. rewrite Hw. destruct t as [a|e|R c k]; cbn [stepTask snd]; try exact Ht.
      pose proof (perform_keeps_tornDown env R c (poolWorld p) Ht) as Hk.
      destruct (perform env c (poolWorld p)) as [[a|e] w'']; exact Hk. }
    rewrite <- Hw in Htd, Hres.
    pose proof (weightSum_tearsDown_lookup pts i pt Hpt) as Hle.
    pose proof (tearsDown_range pt) as Hrange.
    destruct (fst (stepTask env t (poolWorld p))) as [t'|].
    + destruct Hres as [pt' [Hat' [_ [Hkeeps Hcc]]]].
      pose proof (tearsDown_range pt') as Hrange'.
      exists (<[i := pt']> pts). rewrite Hfl. split; [|split].
      * apply Forall2_insert; assumption.
      * destruct Hcc as [[Hcc _]|[Hcc _]]; lia.
      * rewrite (weightSum_insert tearsDown pts i pt pt' Hpt).
        destruct Hcc as [[Hcc Hnew]|[Hcc Hnew]].
        -- assert (Hsame : limitAnswered env c0 (poolWorld p') <->
                           limitAnswered env c0 (poolWorld p)).
           { split; apply limitAnswered_mono; lia. }
           rewrite Hsame, Hiff. split.
           ++ intros [Ht|Hpos]; [left; auto|].
              destruct (Z.eq_dec (tearsDown pt) 1) as [H1|H1].
              ** destruct (Hkeeps H1) as [H1'|Ht']; [right; lia|left; exact Ht'].
              ** right. lia.
           ++ intros [Ht|Hpos].
              ** destruct (Htd Ht) as [Ht0|H1]; [left; exact Ht0|right; lia].
              ** destruct (Z.eq_dec (tearsDown pt') 1) as [H1|H1].
                 --- right. pose proof (Hnew H1). lia.
                 --- right. lia.
        -- split.
           ++ intros [n [Hn Hl]].
              destruct (Nat.eq_dec n (chargeCalls (poolWorld p))) as [->|Hne].
              ** right. apply Hnew in Hl. lia.
              ** assert (Hold : limitAnswered env c0 (poolWorld p))
                   by (exists n; split; [lia|exact Hl]).
                 apply Hiff in Hold. destruct Hold as [Ht|Hpos]; [left; auto|].
                 destruct (Z.eq_dec (tearsDown pt) 1) as [H1|H1].
                 --- destruct (Hkeeps H1) as [H1'|Ht']; [right; lia|left; exact Ht'].
                 --- right. lia.
           ++ intros [Ht|Hpos].
              ** apply (limitAnswered_mono env c0 (poolWorld p)); [lia|].
                 apply Hiff. destruct (Htd Ht) as [Ht0|H1]; [left; exact Ht0|right; lia].
              ** destruct (Z.eq_dec (tearsDown pt') 1) as [H1|H1].
                 --- exists (chargeCalls (poolWorld p)). split; [lia|].
                     apply Hnew. exact H1.
                 --- apply (limitAnswered_mono env c0 (poolWorld p)); [lia|].
                     apply Hiff. right. lia.
    + destruct Hres as [Hzero [_ Hcc]].
      exists (delete i pts). rewrite Hfl. split; [|split].
      * apply Forall2_delete. exact Hall.
      * lia.
      * rewrite (weightSum_delete tearsDown pts i pt Hpt).
        assert (Hsame : limitAnswered env c0 (poolWorld p') <->
                        limitAnswered env c0 (poolWorld p)).
        { split; apply limitAnswered_mono; lia. }
        rewrite Hsame, Hiff. split.
        -- intros [Ht|Hpos]; [left; auto|right; lia].
        -- intros [Ht|Hpos]; [|right; lia].
           destruct (Htd Ht) as [Ht0|H1]; [left; exact Ht0|lia].
Qed.

Lemma CrawlInv_run env prepaid c0 p ls p' :
  poolRun env prepaid p ls p' -> CrawlInv env prepaid c0 p -> CrawlInv env prepaid c0 p'.
Proof.
  induction 1 as [p|p l p' ls p'' Hstep _ IH]; intros Hinv; [exact Hinv|].
  apply IH. exact (CrawlInv_step env prepaid c0 p l p' Hstep Hinv).
Qed.

Lemma CrawlInv_fresh env prepaid w0 q :
  tornDown w0 = false -> CrawlInv env prepaid (chargeCalls w0) (mkPool w0 q []).
Proof.
  intros Htd. exists []. cbn [poolWorld poolInFlight weightSum].
  split; [constructor|]. split; [lia|]. split.
  - intros [n [Hn _]]. lia.
  - intros [Ht|Hpos]; [congruence|lia].
Qed.

Lemma DecisionsInv_step env prepaid bound p l p' :
  poolStep env prepaid p l p' ->
  tornDown (poolWorld p) = true ->
  DecisionsInv prepaid bound p -> DecisionsInv prepaid bound p'.
Proof.
  intros Hstep Htd [pts [Hall Hle]].
  destruct (poolStep_after_teardown env prepaid p l p' Hstep Htd) as [Hl _].
  destruct (poolStep_task env prepaid p l p' Hstep) as
    [[u [Hw Hfl]]|[i [t [Hi [Hw Hfl]]]]].
  - destruct Hstep; cbn [isStart] in Hl; try discriminate;
      cbn [poolInFlight] in Hfl.
    + exfalso. apply (f_equal length) in Hfl. rewrite length_app in Hfl.
      cbn [length] in Hfl.
      rewrite length_insert in Hfl. lia.
    + exfalso. apply (f_equal length) in Hfl. rewrite length_app in Hfl.
      cbn [length] in Hfl.
      pose proof (length_delete fl i) as Hd.
      assert (is_Some (fl !! i)) as Hs by eauto. rewrite (Hd Hs) in Hfl. lia.
    + exfalso. apply (f_equal length) in Hfl. rewrite length_app in Hfl.
      cbn [length] in Hfl.
      pose proof (length_delete fl i) as Hd.
      assert (is_Some (fl !! i)) as Hs by eauto. rewrite (Hd Hs) in Hfl. lia.
    + exfalso. apply (f_equal length) in Hfl. rewrite length_app in Hfl.
      cbn [length] in Hfl.
      pose proof (length_delete fl i) as Hd.
      assert (is_Some (fl !! i)) as Hs by eauto. rewrite (Hd Hs) in Hfl. lia.
  - destruct (Forall2_lookup_l _ _ _ _ _ Hall Hi) as [pt [Hpt Hat]].
    pose proof (stepTask_point env prepaid t pt (poolWorld p) Hat) as [_ Hres].
    rewrite <- Hw in Hres.
    destruct (fst (stepTask env t (poolWorld p))) as [t'|].
    + destruct Hres as [pt' [Hat' [Hdec _]]].
      exists (<[i := pt']> pts). rewrite Hfl. split.
      * apply Forall2_insert; assumption.
      * rewrite (weightSum_insert decisionsLeft pts i pt pt' Hpt). lia.
    + destruct Hres as [_ [Hdec _]].
      exists (delete i pts). rewrite Hfl. split.
      * apply Forall2_delete. exact Hall.
      * rewrite (weightSum_delete decisionsLeft pts i pt Hpt). lia.
Qed.

Lemma DecisionsInv_run env prepaid bound p ls p' :
  poolRun env prepaid p ls p' ->
  tornDown (poolWorld p) = true ->
  DecisionsInv prepaid bound p -> DecisionsInv prepaid bound p'.
Proof.
  induction 1 as [p|p l p' ls p'' Hstep _ IH]; intros Htd Hinv; [exact Hinv|].
  destruct (poolStep_after_teardown env prepaid p l p' Hstep Htd) as [_ [_ Htd']].
  apply (IH Htd'). exact (DecisionsInv_step env prepaid bound p l p' Hstep Htd Hinv).
Qed.

Lemma poolRun_app env prepaid p ls p' ls' p'' :
  poolRun env prepaid p ls p' -> poolRun env prepaid p' ls' p'' ->
  poolRun env prepaid p (ls ++ ls') p''.
Proof.
  induction 1 as [p|p l p' ls p3 Hstep _ IH]; intros Hrun; [exact Hrun|].
  cbn [app]. eapply poolRun_cons; [exact Hstep|]. exact (IH Hrun).
Qed.

Lemma poolRun_procReach env prepaid p ls p' s :
  poolRun env prepaid p ls p' ->
  procReach env prepaid (Running p') s ->
  procReach env prepaid (Running p) s.
Proof.
  induction 1 as [p|p l p' ls p'' Hstep _ IH]; intros Hreach; [exact Hreach|].
  eapply procReach_step; [eapply proc_crawl; exact Hstep|]. exact (IH Hreach).
Qed.

Lemma procReach_from_exited env prepaid w cut s :
  procReach env prepaid (Exited w cut) s -> s = Exited w cut.
Proof.
  intros Hreach. remember (Exited w cut) as s0 eqn:Hs0.
  destruct Hreach as [s|s s' s'' Hstep _]; [reflexivity|].
  subst s. inversion Hstep.
Qed.

Lemma procReach_exit_inv env prepaid s s' :
  procReach env prepaid s s' ->
  forall p w cut, s = Running p -> s' = Exited w cut ->
  exists ls p', poolRun env prepaid p ls p' /\ crawlerRunReturned p' /\
                w = poolWorld p' /\ cut = poolInFlight p'.
Proof.
  induction 1 as [s|s s1 s2 Hstep Hreach IH]; intros p w cut Hs Hs'.
  - subst s. discriminate.
  - subst s s2. inversion Hstep as [p0 l p1 Hpool|p0 Hret]; subst.
    + destruct (IH p1 w cut eq_refl eq_refl) as [ls [p' [Hrun Hrest]]].
      exists (l :: ls), p'. split; [eapply poolRun_cons; eassumption|exact Hrest].
    + apply procReach_from_exited in Hreach. injection Hreach as -> ->.
      exists [], p. repeat split; [constructor|exact Hret].
Qed.

Lemma aboutToTearDown_of_point prepaid t pt :
  AtPoint prepaid t pt -> tearsDown pt = 1 -> aboutToTearDown t.
Proof.
  intros Hat Htd. destruct Hat; cbn [tearsDown] in Htd; try discriminate.
  - destruct b; [left; reflexivity|discriminate].
  - right. reflexivity.
Qed.

Lemma capped_crawl_torn_down_in_flight :
  exists p,
    poolRun cappedEnv 0 cappedPool cappedLabels p /\
    tornDown (poolWorld p) = true /\
    length (poolInFlight p) = 2%nat /\
    decisions (trace (poolWorld p)) = [Paid].
Proof.
  eexists. split.
  - unfold cappedPool, cappedLabels.
    eapply poolRun_cons.
    { apply (step_start _ _ _ firstRequest [waitingRequest] [] None);
        [reflexivity|unfold maxConcurrency; cbn [length]; lia]. }
    cbn [app].
    eapply poolRun_cons.
    { apply (step_start _ _ _ waitingRequest [] _ None);
        [reflexivity|unfold maxConcurrency; cbn [length]; lia]. }
    cbn [app].
    do 7 pool_call.
    apply poolRun_nil.
  - split; [reflexivity|]. split; reflexivity.
Qed.

(** C8, counterexample. Two handlers are in flight when the first one is
    answered that the charge limit was reached and tears the crawler down:
    [crawler.run] returns, the script calls [Actor.exit()], and the process
    ends with the second handler cut off before its decision. *)
Lemma C8_handlers_in_flight_cut_off :
  ~ handlersInFlightComplete cappedEnv 0 cappedPool.
Proof.
  intros Hclaim.
  destruct capped_crawl_torn_down_in_flight as [p [Hrun [Htd [Hlen _]]]].
  assert (Hreach : procReach cappedEnv 0 (Running cappedPool)
                     (Exited (poolWorld p) (poolInFlight p))).
  { apply (poolRun_procReach cappedEnv 0 cappedPool cappedLabels p _ Hrun).
    eapply procReach_step; [apply proc_exit; left; exact Htd|apply procReach_refl]. }
  specialize (Hclaim _ _ Hreach). rewrite Hclaim in Hlen. discriminate Hlen.
Qed.

(** C8, as the source has it. In a crawl that starts with no handler in
    flight: the crawler is torn down only after a call of [Actor.charge]
    was answered that the limit was reached; after such an answer the
    crawler is torn down, or the handler that got the answer is in flight
    and about to tear it down, which it does when run on.  Once the crawler
    is torn down no handler is started (the crawler's contract, the premise
    of [step_start]) and the queue stays as it is, so at most the handlers
    already in flight take a further decision.  Those
    handlers are not waited for: the process can end with handlers cut
    off, and does so only after the limit was reached. *)
Theorem C8_limit_reached_tears_down env prepaid w0 q ls p :
  tornDown w0 = false ->
  poolRun env prepaid (mkPool w0 q []) ls p ->
  (tornDown (poolWorld p) = true -> limitAnswered env (chargeCalls w0) (poolWorld p)) /\
  (limitAnswered env (chargeCalls w0) (poolWorld p) ->
   tornDown (poolWorld p) = true \/
   exists i t, poolInFlight p !! i = Some t /\ aboutToTearDown t) /\
  (forall t w, aboutToTearDown t ->
     fst (run env t w) = Returned tt /\ tornDown (snd (run env t w)) = true) /\
  (tornDown (poolWorld p) = true ->
   forall ls' p', poolRun env prepaid p ls' p' ->
     List.Forall (fun l => isStart l = false) ls' /\
     poolQueue p' = poolQueue p /\
     decisionsTaken (poolWorld p') - decisionsTaken (poolWorld p)
       <= Z.of_nat (length (poolInFlight p))) /\
  (forall w cut,
     procReach env prepaid (Running p) (Exited w cut) ->
     cut <> [] ->
     tornDown w = true /\ limitAnswered env (chargeCalls w0) w).
Proof.
  intros Htd0 Hrun.
  pose proof (CrawlInv_run env prepaid (chargeCalls w0) _ ls p Hrun
                (CrawlInv_fresh env prepaid w0 q Htd0)) as Hinv.
  split; [|split; [|split; [|split]]].
  - intros Ht. destruct Hinv as [pts [_ [_ Hiff]]]. apply Hiff. left. exact Ht.
  - intros Hlim. destruct Hinv as [pts [Hall [_ Hiff]]].
    apply Hiff in Hlim. destruct Hlim as [Ht|Hpos]; [left; exact Ht|right].
    destruct (weightSum_tearsDown_pos pts Hpos) as [i [pt [Hpt H1]]].
    destruct (Forall2_lookup_r _ _ _ _ _ Hall Hpt) as [t [Ht Hat]].
    exists i, t. split; [exact Ht|].
    exact (aboutToTearDown_of_point prepaid t pt Hat H1).
  - intros t w [->| ->].
    + unfold afterCharge. cbn [run perform call bind fst snd].
      unfold emit, withTornDown. cbn [tornDown]. split; reflexivity.
    + cbn [run perform call fst snd]. unfold emit, withTornDown. cbn [tornDown].
      split; reflexivity.
  - intros Ht ls' p' Hrun'.
    destruct (poolRun_after_teardown env prepaid p ls' p' Hrun' Ht) as [Hls [Hq _]].
    split; [exact Hls|]. split; [exact Hq|].
    destruct Hinv as [pts [Hall _]].
    assert (H0 : DecisionsInv prepaid
                   (decisionsTaken (poolWorld p) + weightSum decisionsLeft pts) p).
    { exists pts. split; [exact Hall|lia]. }
    destruct (DecisionsInv_run env prepaid _ p ls' p' Hrun' Ht H0) as [pts' [_ Hle]].
    pose proof (weightSum_decisionsLeft_length pts) as Hb.
    pose proof (weightSum_decisionsLeft_length pts') as Hb'.
    rewrite (Forall2_length _ _ _ Hall). lia.
  - intros w cut Hreach Hcut.
    destruct (procReach_exit_inv env prepaid _ _ Hreach p w cut eq_refl eq_refl)
      as [ls' [p' [Hrun' [Hret [-> ->]]]]].
    assert (Ht : tornDown (poolWorld p') = true).
    { destruct Hret as [Ht|[_ Hnone]]; [exact Ht|contradiction]. }
    split; [exact Ht|].
    pose proof (CrawlInv_run env prepaid (chargeCalls w0) _ ls' p' Hrun' Hinv)
      as [pts' [_ [_ Hiff']]].
    apply Hiff'. left. exact Ht.
Qed.

(** The crawl of the counterexample up to the teardown: the limit was
    answered, and at most the two handlers in flight decide after it. *)
Lemma C8_limit_reached_witness :
  exists p,
    poolRun cappedEnv 0 cappedPool cappedLabels p /\
    limitAnswered cappedEnv 0 (poolWorld p) /\
    forall ls' p', poolRun cappedEnv 0 p ls' p' ->
      decisionsTaken (poolWorld p') - decisionsTaken (poolWorld p) <= 2.
Proof.
  destruct capped_crawl_torn_down_in_flight as [p [Hrun [Htd [Hlen _]]]].
  exists p. split; [exact Hrun|].
  destruct (C8_limit_reached_tears_down cappedEnv 0 (initialWorld [])
              [firstRequest; waitingRequest] cappedLabels p eq_refl Hrun)
    as [Honly [_ [_ [Hafter _]]]].
  split; [exact (Honly Htd)|].
  intros ls' p' Hrun'. destruct (Hafter Htd ls' p' Hrun') as [_ [_ Hle]].
  rewrite Hlen in Hle. exact Hle.
Defined.
